(** * Tate algebras: parents, canonical keys, coercion and pushout

    A shallow embedding of [src/sage/rings/tate_algebra.py]: the factory
    [TateAlgebraFactory], the parent of terms [TateTermMonoid] and the parent
    [TateAlgebra_generic], followed by the properties of the parent-level
    structure (identity, generators, coercion tests, pushout).

    The p-adic base rings, the polynomial ring layer, [normalize_names],
    [TermOrder], [ZZ] and [pushout] are collaborators of the module: they
    are taken as an interface ([Ambient]) and every statement holds for
    every implementation of it. *)

From stdpp Require Import gmap strings list pretty.

Local Open Scope string_scope.
Local Open Scope Z_scope.

(** ** Python results: a value or a raised exception *)

Inductive exn : Type :=
  | TypeError (msg : string)
  | ValueError (msg : string)
  | IndexError (msg : string)
  | OverflowError (msg : string)
  | CoercionException (msg : string).

Inductive res (A : Type) : Type :=
  | Ok (a : A)
  | Raise (e : exn).
Arguments Ok {A} a.
Arguments Raise {A} e.

Global Instance res_ret : MRet res := λ A a, Ok a.
Global Instance res_bind : MBind res := λ A B f m,
  match m with
  | Ok a => f a
  | Raise e => Raise e
  end.

(** [[f(x) for x in l]], stopping at the first exception. *)
Fixpoint comprehension {A B : Type} (f : A → res B) (l : list A) : res (list B) :=
  match l with
  | [] => Ok []
  | x :: l' => y ← f x; ys ← comprehension f l'; Ok (y :: ys)
  end.

(** [l[i]] for [i] taken from a [range]: never negative. *)
Definition getitem {A : Type} (l : list A) (i : nat) : res A :=
  match l !! i with
  | Some x => Ok x
  | None => Raise (IndexError "index out of range")
  end.

(** [t[i]] on a tuple, for [i] taken from a [range]. *)
Definition tuple_getitem {A : Type} (t : list A) (i : nat) : res A :=
  match t !! i with
  | Some x => Ok x
  | None => Raise (IndexError "tuple index out of range")
  end.

(** The range of a C [int]. *)
Definition int_min : Z := -2147483648.
Definition int_max : Z := 2147483647.

Definition fits_int (z : Z) : bool := (int_min <=? z) && (z <=? int_max).

(** Modelled from the spec: [ETuple] (sage.rings.polynomial.polydict) is
    missing from the sources. The spec has the radius vector as an ordered
    tuple of integers, one per variable; the exponent tuple that stores it
    keeps every entry as a C [int], so building it from an integer outside
    that range raises [OverflowError]. *)
Definition ETuple (data : list Z) : res (list Z) :=
  if forallb fits_int data then Ok data
  else Raise (OverflowError "value too large to convert to int").

(** [l[n]] for a Python integer [n]: a negative [n] counts from the end. *)
Definition list_getitem {A : Type} (l : list A) (n : Z) : res A :=
  let len := Z.of_nat (length l) in
  let i := if n <? 0 then n + len else n in
  if (i <? 0) || (len <=? i)
  then Raise (IndexError "list index out of range")
  else getitem l (Z.to_nat i).

(** ** Data model *)

(** An element is only needed as far as the generators go: the series
    [(one << elt_shift) * polynomial_ring.gen(elt_indet)]. *)
Record TateAlgebraElement : Type := {
  elt_shift : Z;
  elt_indet : nat
}.

(** The attributes set by [TateAlgebra_generic.__init__], apart from
    [_integer_ring] (below) and [_parent_terms] (see [monoid_of_terms]). *)
Record TateAlgebra_attrs {padic torder : Type} : Type := {
  _field : padic;
  _cap : Z;
  _log_radii : list Z;
  _names : list string;
  _ngens : nat;
  _order : torder;
  _integral : bool;
  _base : padic;
  _gens : list TateAlgebraElement
}.
Arguments TateAlgebra_attrs : clear implicits.

(** [_integer_ring] is [self] on a ring of integers; on a full algebra it is
    the ring of integers built by [__init__], whose own [_integer_ring] is
    itself. *)
Inductive twin_ref {padic torder : Type} : Type :=
  | Self
  | Twin (AA : TateAlgebra_attrs padic torder).
Arguments twin_ref : clear implicits.

Record TateAlgebra_generic {padic torder : Type} : Type := {
  attrs :> TateAlgebra_attrs padic torder;
  _integer_ring : twin_ref padic torder
}.
Arguments TateAlgebra_generic : clear implicits.

Record TateTermMonoid {padic torder : Type} : Type := {
  T_base : padic;
  T_field : padic;
  T_names : list string;
  T_ngens : nat;
  T_log_radii : list Z;
  T_order : torder;
  T_parent_algebra : TateAlgebra_generic padic torder
}.
Arguments TateTermMonoid : clear implicits.

(** What a coercion test or a pushout can be handed: [R] in the source. *)
Inductive parent {padic torder : Type} : Type :=
  | PAdic (K : padic)
  | Monoid (T : TateTermMonoid padic torder)
  | Algebra (A : TateAlgebra_generic padic torder)
  | Element (owner : TateAlgebra_generic padic torder) (x : TateAlgebraElement)
  | OtherParent (name : string).
Arguments parent : clear implicits.

(** Arguments of the factory. *)
Inductive names_arg : Type :=
  | NamesStr (s : string)
  | NamesSeq (l : list string).

Inductive order_arg {torder : Type} : Type :=
  | OrderName (s : string)
  | OrderObj (o : torder).
Arguments order_arg : clear implicits.

Inductive radii_arg {value : Type} : Type :=
  | Scalar (v : value)
  | Seq (l : list value).
Arguments radii_arg : clear implicits.

(** ** The collaborators *)

Class Ambient (padic torder value : Type) : Type := {
  fraction_field : padic → padic;
  pAdic_integer_ring : padic → padic;
  is_field : padic → bool;
  absolute_e : padic → positive;
  pAdic_precision_cap : padic → Z;
  pAdic_has_coerce_map_from : padic → parent padic torder → bool;
  pushout : padic → padic → res padic;
  normalize_names : names_arg → res (list string);
  TermOrder : order_arg torder → nat → res torder;
  ZZ : value → res Z;
  of_Z : Z → value
}.

(** ** The interning registry of the factory

    An instance is a structure together with its identity (what Python's
    [is] compares); the registry maps a key to the instance built for it. *)

Record instance {padic torder : Type} : Type := {
  inst_id : nat;
  inst_obj : TateAlgebra_generic padic torder
}.
Arguments instance : clear implicits.

Record registry {padic torder : Type} `{Countable padic, Countable torder} : Type := {
  cache : gmap (padic * Z * list Z * list string * torder) (instance padic torder);
  next_id : nat
}.
Arguments registry padic torder {_ _ _ _}.

Section tate_algebra.
Context {padic torder value : Type}.
Context `{Countable padic, Countable torder}.
Context `{!Ambient padic torder value}.

Abbreviation algebra := (TateAlgebra_generic padic torder).
Abbreviation monoid := (TateTermMonoid padic torder).
Abbreviation key := (padic * Z * list Z * list string * torder)%type.

(** *** [TateAlgebraFactory.create_key] *)

Definition create_key (base : parent padic torder) (prec : option Z)
    (log_radii : radii_arg value) (names : option names_arg)
    (order : order_arg torder) : res key :=
  match base with
  | PAdic base =>
      let base := fraction_field base in
      match names with
      | None => Raise (ValueError "You must specify the names of the variables")
      | Some names =>
          names ← normalize_names names;
          let ngens := length names in
          log_radii ←
            match log_radii with
            | Scalar v => r ← ZZ v; Ok (replicate ngens r)
            | Seq l =>
                if bool_decide (length l ≠ ngens)
                then Raise (ValueError "The number of radii does not match the number of variables")
                else comprehension ZZ l
            end;
          order ← TermOrder order ngens;
          let prec := match prec with
                      | None => pAdic_precision_cap base
                      | Some prec => prec
                      end in
          Ok (base, prec, log_radii, names, order)
      end
  | _ => Raise (TypeError "The base ring must be a p-adic field")
  end.

(** *** [TateAlgebra_generic.__init__] *)

(** The attributes of a structure with [integral=True]: [_log_radii] is
    [ETuple(log_radii)], and the generators read [log_radii[i]] for every
    [i] in [range(ngens)]. *)
Definition init_integral (field : padic) (prec : Z) (log_radii : list Z)
    (names : list string) (order : torder)
    : res (TateAlgebra_attrs padic torder) :=
  radii ← ETuple log_radii;
  let ngens := length names in
  gens ← comprehension
            (λ i, r ← tuple_getitem log_radii i;
                  Ok {| elt_shift := r; elt_indet := i |})
            (seq 0 ngens);
  Ok {| _field := field; _cap := prec; _log_radii := radii;
        _names := names; _ngens := ngens; _order := order;
        _integral := true; _base := pAdic_integer_ring field; _gens := gens |}.

Definition TateAlgebra_generic_init (field : padic) (prec : Z)
    (log_radii : list Z) (names : list string) (order : torder)
    (integral : bool) : res algebra :=
  if integral then
    self ← init_integral field prec log_radii names order;
    Ok {| attrs := self; _integer_ring := Self |}
  else
    radii ← ETuple log_radii;
    let ngens := length names in
    let gens := (λ i, {| elt_shift := 0; elt_indet := i |}) <$> seq 0 ngens in
    AA ← init_integral field prec log_radii names order;
    Ok {| attrs := {| _field := field; _cap := prec; _log_radii := radii;
                      _names := names; _ngens := ngens; _order := order;
                      _integral := false; _base := field; _gens := gens |};
          _integer_ring := Twin AA |}.

(** [TateAlgebraFactory.create_object] *)
Definition create_object (k : key) : res algebra :=
  let '(base, prec, log_radii, names, order) := k in
  TateAlgebra_generic_init base prec log_radii names order false.

(** *** Accessors of [TateAlgebra_generic] *)

Definition base_ring (self : algebra) : padic := _base self.
Definition variable_names (self : algebra) : list string := _names self.
Definition log_radii (self : algebra) : list Z := _log_radii self.
Definition term_order (self : algebra) : torder := _order self.
Definition precision_cap (self : algebra) : Z := _cap self.
Definition ngens (self : algebra) : nat := _ngens self.
Definition gens (self : algebra) : list TateAlgebraElement := _gens self.

Definition integer_ring (self : algebra) : algebra :=
  match _integer_ring self with
  | Self => self
  | Twin AA => {| attrs := AA; _integer_ring := Self |}
  end.

Definition gen (self : algebra) (n : Z) : res TateAlgebraElement :=
  match list_getitem (_gens self) n with
  | Ok g => Ok g
  | Raise (IndexError _) => Raise (ValueError "generator not defined")
  | Raise e => Raise e
  end.

(** *** [TateTermMonoid] *)

Definition TateTermMonoid_init (A : algebra) : monoid :=
  let names := variable_names A in
  {| T_base := base_ring A; T_field := _field A; T_names := names;
     T_ngens := length names; T_log_radii := log_radii A;
     T_order := term_order A; T_parent_algebra := A |}.

(** [_parent_terms] is built once by [__init__] from [self], which is
    never modified afterwards. *)
Definition monoid_of_terms (self : algebra) : monoid := TateTermMonoid_init self.

Definition algebra_of_series (self : monoid) : algebra := T_parent_algebra self.

(** *** [TateAlgebra_generic._coerce_map_from_] *)

(** The loop over [range(self._ngens)]. *)
Fixpoint radii_match (logs Rlogs : list Z) (ratio : Z) (indices : list nat)
    : res bool :=
  match indices with
  | [] => Ok true
  | i :: indices' =>
      l ← getitem logs i;
      r ← getitem Rlogs i;
      if bool_decide (l ≠ ratio * r) then Ok false
      else radii_match logs Rlogs ratio indices'
  end.

(** [R.base_ring()], [R.log_radii()], [R.variable_names()] and
    [R.term_order()] when [isinstance(R, (TateTermMonoid, TateAlgebra_generic))]:
    each call goes to the method of [R]'s class. *)
Definition as_structure (R : parent padic torder)
    : option (padic * list Z * list string * torder) :=
  match R with
  | Monoid T => Some (T_base T, T_log_radii T, T_names T, T_order T)
  | Algebra B => Some (base_ring B, log_radii B, variable_names B, term_order B)
  | _ => None
  end.

Definition TateAlgebra_coerce_map_from_ (self : algebra)
    (R : parent padic torder) : res bool :=
  let base := _base self in
  if pAdic_has_coerce_map_from base R then Ok true
  else
    match as_structure R with
    | Some (Rbase, Rlogs, Rnames, Rorder) =>
        let logs := _log_radii self in
        if pAdic_has_coerce_map_from base (PAdic Rbase)
           && bool_decide (_names self = Rnames)
           && bool_decide (_order self = Rorder)
        then
          let ratio := Z.pos (absolute_e base) `div` Z.pos (absolute_e Rbase) in
          radii_match logs Rlogs ratio (seq 0 (_ngens self))
        else Ok false
    | None => Ok false
    end.

(** Modelled from the spec: [Parent.has_coerce_map_from], the entry point of
    the coercion framework, is missing from the sources; on a Tate algebra
    it is the algebra's own coercion test. *)
Definition TateAlgebra_has_coerce_map_from (self : algebra)
    (S : parent padic torder) : res bool :=
  TateAlgebra_coerce_map_from_ self S.

(** *** [TateTermMonoid._coerce_map_from_]: [None] is Python's [None] *)

Definition TateTermMonoid_coerce_map_from_ (self : monoid)
    (R : parent padic torder) : res (option bool) :=
  let base := T_base self in
  if pAdic_has_coerce_map_from base R then Ok (Some true)
  else
    match R with
    | Monoid U =>
        b ← TateAlgebra_has_coerce_map_from (T_parent_algebra self)
              (Algebra (algebra_of_series U));
        Ok (Some b)
    | Element owner x =>
        b ← TateAlgebra_has_coerce_map_from (T_parent_algebra self)
              (Element owner x);
        Ok (Some b)
    | _ => Ok None
    end.

(** Truth value of what a coercion test returned. *)
Definition truthy (r : res (option bool)) : bool :=
  match r with
  | Ok (Some true) => true
  | _ => false
  end.

(** *** The factory call [TateAlgebra(...)] *)

(** Modelled from the spec: [UniqueFactory.__call__] and its [get_object]
    are missing from the sources; the spec describes them as a lookup of
    the key in the registry which, when the key is absent, builds the
    structure from the key and inserts it. *)
Definition get_object (k : key) (reg : registry padic torder)
    : res (instance padic torder * registry padic torder) :=
  match cache reg !! k with
  | Some inst => Ok (inst, reg)
  | None =>
      A ← create_object k;
      let inst := {| inst_id := next_id reg; inst_obj := A |} in
      Ok (inst, {| cache := <[k := inst]> (cache reg);
                   next_id := S (next_id reg) |})
  end.

Definition TateAlgebra (base : parent padic torder) (prec : option Z)
    (log_radii : radii_arg value) (names : option names_arg)
    (order : order_arg torder) (reg : registry padic torder)
    : res (instance padic torder * registry padic torder) :=
  k ← create_key base prec log_radii names order;
  get_object k reg.

Definition empty_registry : registry padic torder :=
  {| cache := ∅; next_id := 0 |}.

(** *** [TateAlgebra_generic._pushout_]: [None] is Python's [None] *)

Definition _pushout_ (self : algebra) (R : parent padic torder)
    (reg : registry padic torder)
    : res (option algebra * registry padic torder) :=
  match R with
  | PAdic R =>
      base ← pushout (_base self) R;
      let ratio := Z.pos (absolute_e base) `div` Z.pos (absolute_e (_base self)) in
      let cap := ratio * _cap self in
      let log_radii := (λ r, ratio * r) <$> _log_radii self in
      '(A, reg') ← TateAlgebra (PAdic base) (Some cap) (Seq (of_Z <$> log_radii))
                     (Some (NamesSeq (_names self))) (OrderObj (_order self)) reg;
      if is_field base then Ok (Some (inst_obj A), reg')
      else Ok (Some (integer_ring (inst_obj A)), reg')
  | _ => Ok (None, reg)
  end.

(** ** Invariants of built structures *)

(** One log radius and one generator per variable. *)
Definition well_formed (A : TateAlgebra_attrs padic torder) : Prop :=
  _ngens A = length (_names A)
  ∧ length (_log_radii A) = length (_names A)
  ∧ length (_gens A) = length (_names A).

(** Names and order are the normalised ones of a key. *)
Definition canonical (A : TateAlgebra_attrs padic torder) : Prop :=
  normalize_names (NamesSeq (_names A)) = Ok (_names A)
  ∧ TermOrder (OrderObj (_order A)) (length (_names A)) = Ok (_order A).

(** A monoid of terms is the one its algebra built. *)
Definition well_formed_parent (R : parent padic torder) : Prop :=
  match R with
  | Algebra B => well_formed B
  | Monoid T =>
      T = TateTermMonoid_init (T_parent_algebra T)
      ∧ well_formed (T_parent_algebra T)
  | _ => True
  end.

(** The relation tested by the loop of the coercion test at index [i]. *)
Definition scaled_at (logs Rlogs : list Z) (ratio : Z) (i : nat) : Prop :=
  ∃ r s, logs !! i = Some r ∧ Rlogs !! i = Some s ∧ r = ratio * s.

(** Every registered instance is the structure built from its key. *)
Definition registry_ok (reg : registry padic torder) : Prop :=
  ∀ k inst, cache reg !! k = Some inst → create_object k = Ok (inst_obj inst).

(** Identities are handed out once: every registered identity is below
    [next_id], and two keys never share one. *)
Definition ids_unique (reg : registry padic torder) : Prop :=
  (∀ k inst, cache reg !! k = Some inst → (inst_id inst < next_id reg)%nat)
  ∧ (∀ k1 k2 i1 i2, cache reg !! k1 = Some i1 → cache reg !! k2 = Some i2 →
                    inst_id i1 = inst_id i2 → k1 = k2).

(** Registries reached from [reg] by further factory calls. *)
Inductive reachable (reg : registry padic torder) : registry padic torder → Prop :=
  | reachable_refl : reachable reg reg
  | reachable_call k inst reg1 reg2 :
      reachable reg reg1 →
      get_object k reg1 = Ok (inst, reg2) →
      reachable reg reg2.

(** ** Readings of the specification that the code is compared with *)

(** "fails with a generator-not-defined error if and only if the index is
    outside [0, n)". *)
Definition gen_fails_iff_outside_range (A : algebra) : Prop :=
  ∀ n : Z, gen A n = Raise (ValueError "generator not defined")
           ↔ ¬ (0 ≤ n < Z.of_nat (ngens A)).

(** The owning algebra of a term monoid or of an algebra element. *)
Definition owning_algebra (R : parent padic torder) : option algebra :=
  match R with
  | Monoid U => Some (algebra_of_series U)
  | Element owner _ => Some owner
  | _ => None
  end.

(** "accepts [R] exactly when its base ring accepts [R] directly, or [R] is
    a term monoid or algebra element whose owning algebra is accepted by
    the coercion test of the monoid's owning algebra". *)
Definition monoid_accepts_by_owner (T : monoid) (R : parent padic torder) : Prop :=
  truthy (TateTermMonoid_coerce_map_from_ T R) = true
  ↔ (pAdic_has_coerce_map_from (T_base T) R = true
     ∨ ∃ owner, owning_algebra R = Some owner
                ∧ TateAlgebra_has_coerce_map_from (T_parent_algebra T)
                    (Algebra owner) = Ok true).

(** "for every Tate algebra [A] and every p-adic ring or field [R], the
    pushout of [A] with [R] is a Tate algebra with precision cap [e*p] and
    log radii [(e*r_i)]", for [new_base = pushout(A.base, R)]. *)
Definition pushout_scales (A : algebra) (R nb : padic)
    (reg : registry padic torder) : Prop :=
  let e := Z.pos (absolute_e nb) `div` Z.pos (absolute_e (base_ring A)) in
  ∃ B reg', _pushout_ A (PAdic R) reg = Ok (Some B, reg')
            ∧ precision_cap B = e * precision_cap A
            ∧ log_radii B = (λ r, e * r) <$> log_radii A.

(** "if the structure being pushed out is an integral-subring view, the
    result is the integral subring of the freshly built full algebra". *)
Definition pushout_keeps_integral_view (A : algebra) (R : parent padic torder)
    (reg : registry padic torder) : Prop :=
  _integral A = true →
  ∀ B reg', _pushout_ A R reg = Ok (Some B, reg') → _integral B = true.

End tate_algebra.

(** ** Printing and the default element *)

(** [s[n:]] on a string. *)
Fixpoint slice_from (n : nat) (s : string) : string :=
  match n, s with
  | O, _ => s
  | S n', String _ s' => slice_from n' s'
  | S _, EmptyString => EmptyString
  end.

(** The loop [vars += ", %s (val >= %s)" % (names[i], -log_radii[i])] of both
    [_repr_] methods. *)
Fixpoint repr_vars (names : list string) (log_radii : list Z) (indices : list nat)
    (vars : string) : res string :=
  match indices with
  | [] => Ok vars
  | i :: indices' =>
      name ← getitem names i;
      r ← getitem log_radii i;
      repr_vars names log_radii indices'
        (vars +:+ ", " +:+ name +:+ " (val >= " +:+ pretty (- r) +:+ ")")
  end.

Section printing.
Context {padic torder value : Type}.
Context `{!Ambient padic torder value}.

(** ["%s" % K] for a base ring [K]: the printing of p-adic rings is not part
    of this module. *)
Variable str_base : padic → string.

(** [TateAlgebra_generic._repr_] *)
Definition TateAlgebra_repr_ (self : TateAlgebra_generic padic torder) : res string :=
  vars ← repr_vars (_names self) (_log_radii self) (seq 0 (_ngens self)) "";
  if _integral self
  then Ok ("Integer ring of the Tate Algebra in " +:+ slice_from 2 vars
           +:+ " over " +:+ str_base (_field self))
  else Ok ("Tate Algebra in " +:+ slice_from 2 vars
           +:+ " over " +:+ str_base (_field self)).

(** [TateTermMonoid._repr_] *)
Definition TateTermMonoid_repr_ (self : TateTermMonoid padic torder) : res string :=
  if bool_decide (T_ngens self = 0%nat)
  then Ok ("Monoid of terms over " +:+ str_base (T_base self))
  else
    vars ← repr_vars (T_names self) (T_log_radii self) (seq 0 (T_ngens self)) "";
    Ok ("Monoid of terms in " +:+ slice_from 2 vars
        +:+ " over " +:+ str_base (T_base self)).

(** [TateAlgebra_generic._an_element_] *)
Definition _an_element_ (self : TateAlgebra_generic padic torder)
    : res TateAlgebraElement :=
  gen self 0.

(** The text of one variable in a [_repr_]. *)
Definition repr_var (name : string) (r : Z) : string :=
  name +:+ " (val >= " +:+ pretty (- r) +:+ ")".

End printing.

(** ** A reference implementation of the collaborators

    The bases of the docstrings, all over the prime 2: a base is described by
    whether it is a field, its absolute ramification index and its residue
    degree. [Zp(2)] is [Z2], [Zq(4)] is [Z4], the extension of [Zp(2)] by
    [x^2 - 2] is [Z2pi]. *)

Module Dyadic.

Record base : Type := { fld : bool; ram : positive; deg : positive }.

Global Instance base_eq_dec : EqDecision base.
Proof. solve_decision. Defined.

Global Instance base_countable : Countable base.
Proof.
  apply (inj_countable' (λ K, (fld K, ram K, deg K))
           (λ t, {| fld := t.1.1; ram := t.1.2; deg := t.2 |})).
  by intros [].
Defined.

Definition Z2 : base := {| fld := false; ram := 1; deg := 1 |}.
Definition Q2 : base := {| fld := true; ram := 1; deg := 1 |}.
Definition Z4 : base := {| fld := false; ram := 1; deg := 2 |}.
Definition Q4 : base := {| fld := true; ram := 1; deg := 2 |}.
Definition Z2pi : base := {| fld := false; ram := 2; deg := 1 |}.
Definition Q2pi : base := {| fld := true; ram := 2; deg := 1 |}.

Definition divides (a b : positive) : bool := Z.pos b `mod` Z.pos a =? 0.

Definition lcm (a b : positive) : positive := Z.to_pos (Z.lcm (Z.pos a) (Z.pos b)).

(** Names given as one string are separated by commas. *)
Fixpoint split_names (s : string) (cur : string) : list string :=
  match s with
  | EmptyString => [String.rev cur]
  | String c s' =>
      if Ascii.eqb c (Ascii.ascii_of_nat 44) then String.rev cur :: split_names s' EmptyString
      else split_names s' (String c cur)
  end.

Global Instance dyadic : Ambient base string Z := {|
  fraction_field K := {| fld := true; ram := ram K; deg := deg K |};
  pAdic_integer_ring K := {| fld := false; ram := ram K; deg := deg K |};
  is_field := fld;
  absolute_e := ram;
  pAdic_precision_cap _ := 20;
  pAdic_has_coerce_map_from K R :=
    match R with
    | PAdic L => implb (fld L) (fld K) && divides (ram L) (ram K)
                 && divides (deg L) (deg K)
    | OtherParent name => bool_decide (name = "ZZ")
    | _ => false
    end;
  pushout K L := Ok {| fld := fld K || fld L; ram := lcm (ram K) (ram L);
                       deg := lcm (deg K) (deg L) |};
  normalize_names names :=
    match names with
    | NamesStr s => Ok (split_names s EmptyString)
    | NamesSeq l => Ok l
    end;
  TermOrder order n :=
    match order with
    | OrderName s => Ok s
    | OrderObj o => Ok o
    end;
  ZZ v := Ok v;
  of_Z z := z
|}.

(** [A.<x,y> = TateAlgebra(Zp(2))] and its monoid of terms. *)
Definition key_xy : base * Z * list Z * list string * string :=
  (Q2, 20, [0; 0], ["x"; "y"], "degrevlex").

Definition AA_xy : TateAlgebra_attrs base string :=
  {| _field := Q2; _cap := 20; _log_radii := [0; 0]; _names := ["x"; "y"];
     _ngens := 2; _order := "degrevlex"; _integral := true; _base := Z2;
     _gens := [ {| elt_shift := 0; elt_indet := 0 |};
                {| elt_shift := 0; elt_indet := 1 |} ] |}.

Definition A_xy : TateAlgebra_generic base string :=
  {| attrs := {| _field := Q2; _cap := 20; _log_radii := [0; 0];
                 _names := ["x"; "y"]; _ngens := 2; _order := "degrevlex";
                 _integral := false; _base := Q2;
                 _gens := [ {| elt_shift := 0; elt_indet := 0 |};
                            {| elt_shift := 0; elt_indet := 1 |} ] |};
     _integer_ring := Twin AA_xy |}.

Definition T_xy : TateTermMonoid base string := monoid_of_terms A_xy.

(** [A.<u,v> = TateAlgebra(Zp(2), log_radii=[1,2])] of the pushout
    docstring. *)
Definition AA_uv : TateAlgebra_attrs base string :=
  {| _field := Q2; _cap := 20; _log_radii := [1; 2]; _names := ["u"; "v"];
     _ngens := 2; _order := "degrevlex"; _integral := true; _base := Z2;
     _gens := [ {| elt_shift := 1; elt_indet := 0 |};
                {| elt_shift := 2; elt_indet := 1 |} ] |}.

Definition A_uv : TateAlgebra_generic base string :=
  {| attrs := {| _field := Q2; _cap := 20; _log_radii := [1; 2];
                 _names := ["u"; "v"]; _ngens := 2; _order := "degrevlex";
                 _integral := false; _base := Q2;
                 _gens := [ {| elt_shift := 0; elt_indet := 0 |};
                            {| elt_shift := 0; elt_indet := 1 |} ] |};
     _integer_ring := Twin AA_uv |}.

(** [B.<x,y> = TateAlgebra(R, log_radii=[1,-1])] and
    [C.<x,y> = TateAlgebra(S, log_radii=[2,-2])] over the extension [S] of
    [R] by [u^2 - 2], of the coercion docstring. *)
Definition BB_xy : TateAlgebra_attrs base string :=
  {| _field := Q2; _cap := 20; _log_radii := [1; -1]; _names := ["x"; "y"];
     _ngens := 2; _order := "degrevlex"; _integral := true; _base := Z2;
     _gens := [ {| elt_shift := 1; elt_indet := 0 |};
                {| elt_shift := -1; elt_indet := 1 |} ] |}.

Definition B_xy : TateAlgebra_generic base string :=
  {| attrs := {| _field := Q2; _cap := 20; _log_radii := [1; -1];
                 _names := ["x"; "y"]; _ngens := 2; _order := "degrevlex";
                 _integral := false; _base := Q2;
                 _gens := [ {| elt_shift := 0; elt_indet := 0 |};
                            {| elt_shift := 0; elt_indet := 1 |} ] |};
     _integer_ring := Twin BB_xy |}.

Definition CC_xy : TateAlgebra_attrs base string :=
  {| _field := Q2pi; _cap := 20; _log_radii := [2; -2]; _names := ["x"; "y"];
     _ngens := 2; _order := "degrevlex"; _integral := true; _base := Z2pi;
     _gens := [ {| elt_shift := 2; elt_indet := 0 |};
                {| elt_shift := -2; elt_indet := 1 |} ] |}.

Definition C_xy : TateAlgebra_generic base string :=
  {| attrs := {| _field := Q2pi; _cap := 20; _log_radii := [2; -2];
                 _names := ["x"; "y"]; _ngens := 2; _order := "degrevlex";
                 _integral := false; _base := Q2pi;
                 _gens := [ {| elt_shift := 0; elt_indet := 0 |};
                            {| elt_shift := 0; elt_indet := 1 |} ] |};
     _integer_ring := Twin CC_xy |}.

(** [TateAlgebra(Zp(2), log_radii=2^30, names=('x','y'))]: both radii fit
    a C [int], their doubles do not. *)
Definition AA_big : TateAlgebra_attrs base string :=
  {| _field := Q2; _cap := 20; _log_radii := [1073741824; 1073741824];
     _names := ["x"; "y"]; _ngens := 2; _order := "degrevlex";
     _integral := true; _base := Z2;
     _gens := [ {| elt_shift := 1073741824; elt_indet := 0 |};
                {| elt_shift := 1073741824; elt_indet := 1 |} ] |}.

Definition A_big : TateAlgebra_generic base string :=
  {| attrs := {| _field := Q2; _cap := 20;
                 _log_radii := [1073741824; 1073741824];
                 _names := ["x"; "y"]; _ngens := 2; _order := "degrevlex";
                 _integral := false; _base := Q2;
                 _gens := [ {| elt_shift := 0; elt_indet := 0 |};
                            {| elt_shift := 0; elt_indet := 1 |} ] |};
     _integer_ring := Twin AA_big |}.

(** An algebra over a field of ramification index 4, with the radii of
    [C_xy] doubled. *)
Definition Q2rho : base := {| fld := true; ram := 4; deg := 1 |}.

Definition DD_xy : TateAlgebra_attrs base string :=
  {| _field := Q2rho; _cap := 20; _log_radii := [4; -4]; _names := ["x"; "y"];
     _ngens := 2; _order := "degrevlex"; _integral := true;
     _base := {| fld := false; ram := 4; deg := 1 |};
     _gens := [ {| elt_shift := 4; elt_indet := 0 |};
                {| elt_shift := -4; elt_indet := 1 |} ] |}.

Definition D_xy : TateAlgebra_generic base string :=
  {| attrs := {| _field := Q2rho; _cap := 20; _log_radii := [4; -4];
                 _names := ["x"; "y"]; _ngens := 2; _order := "degrevlex";
                 _integral := false; _base := Q2rho;
                 _gens := [ {| elt_shift := 0; elt_indet := 0 |};
                            {| elt_shift := 0; elt_indet := 1 |} ] |};
     _integer_ring := Twin DD_xy |}.

(** What [TateAlgebra(K, log_radii=radii, names=names, order=order)]
    builds. *)
Definition make (K : base) (radii : list Z) (names : list string) (order : string)
    : res (TateAlgebra_generic base string) :=
  create_object (fraction_field K, pAdic_precision_cap (fraction_field K),
                 radii, names, order).

(** How the bases of the docstrings print (capped relative precision 10
    there, not recorded here). *)
Definition str_base (K : base) : string :=
  (if bool_decide (deg K = 1%positive)
   then (if bool_decide (ram K = 1%positive) then "2-adic "
         else "2-adic Eisenstein Extension ")
   else "2-adic Unramified Extension ")
  +:+ (if fld K then "Field" else "Ring").

(** Base ring, integrality and log radii of the result of a pushout. *)
Definition summary (r : res (option (TateAlgebra_generic base string)
                             * registry base string))
    : option (base * bool * list Z) :=
  match r with
  | Ok (Some B, _) => Some (base_ring B, _integral B, log_radii B)
  | _ => None
  end.

End Dyadic.

(** * Properties *)

(** ** Results and list access *)

Lemma bind_Ok {A B : Type} (m : res A) (f : A → res B) (b : B) :
  m ≫= f = Ok b ↔ ∃ a, m = Ok a ∧ f a = Ok b.
Proof.
  destruct m as [a|e]; simpl; split.
  - eauto.
  - by intros (? & [= <-] & ?).
  - done.
  - by intros (? & ? & _).
Qed.

Lemma getitem_Ok {A : Type} (l : list A) (i : nat) (x : A) :
  getitem l i = Ok x ↔ l !! i = Some x.
Proof. unfold getitem. destruct (l !! i); split; congruence. Qed.

Lemma tuple_getitem_lt {A : Type} (l : list A) (i : nat) :
  (i < length l)%nat → ∃ x, tuple_getitem l i = Ok x ∧ l !! i = Some x.
Proof.
  intros [x Hx]%lookup_lt_is_Some_2. exists x. unfold tuple_getitem. by rewrite Hx.
Qed.

Lemma ETuple_Ok (data radii : list Z) :
  ETuple data = Ok radii ↔ radii = data ∧ forallb fits_int data = true.
Proof.
  unfold ETuple. destruct (forallb fits_int data); split.
  - by intros [= <-].
  - by intros [-> _].
  - done.
  - by intros [_ ?].
Qed.

Lemma ETuple_overflow (data : list Z) :
  forallb fits_int data = false →
  ETuple data = Raise (OverflowError "value too large to convert to int").
Proof. unfold ETuple. by intros ->. Qed.

Lemma getitem_lt {A : Type} (l : list A) (i : nat) :
  (i < length l)%nat → ∃ x, getitem l i = Ok x ∧ l !! i = Some x.
Proof.
  intros [x Hx]%lookup_lt_is_Some_2. exists x. by rewrite getitem_Ok.
Qed.

Lemma comprehension_Forall2 {A B : Type} (f : A → res B) (l : list A) (ys : list B) :
  comprehension f l = Ok ys ↔ Forall2 (λ x y, f x = Ok y) l ys.
Proof.
  revert ys. induction l as [|x l IH]; intros ys; simpl.
  - split.
    + intros [= <-]. constructor.
    + by intros ->%Forall2_nil_inv_l.
  - rewrite bind_Ok. split.
    + intros (y & Hy & (zs & Hzs & [= <-])%bind_Ok).
      constructor; [done | by apply IH].
    + intros (y & zs & Hy & Hzs & ->)%Forall2_cons_inv_l.
      exists y. split; [done |]. apply bind_Ok. exists zs.
      split; [by apply IH | done].
Qed.

Lemma comprehension_length {A B : Type} (f : A → res B) (l : list A) (ys : list B) :
  comprehension f l = Ok ys → length ys = length l.
Proof. intros H%comprehension_Forall2. symmetry. by eapply Forall2_length. Qed.

Lemma comprehension_total {A B : Type} (f : A → res B) (l : list A) :
  (∀ x, x ∈ l → ∃ y, f x = Ok y) → ∃ ys, comprehension f l = Ok ys.
Proof.
  induction l as [|x l IH]; intros Hf; simpl.
  - by eexists.
  - destruct (Hf x) as [y ->]; [by left |].
    destruct IH as [ys ->]; [intros; apply Hf; by right |].
    by eexists.
Qed.

Lemma list_getitem_nonneg {A : Type} (l : list A) (n : Z) :
  0 ≤ n < Z.of_nat (length l) → list_getitem l n = getitem l (Z.to_nat n).
Proof.
  intros Hn. unfold list_getitem.
  assert ((n <? 0) = false) as -> by lia.
  assert (((n <? 0) || (Z.of_nat (length l) <=? n)) = false) as -> by lia.
  done.
Qed.

Lemma list_getitem_negative {A : Type} (l : list A) (n : Z) :
  - Z.of_nat (length l) ≤ n < 0 →
  list_getitem l n = getitem l (Z.to_nat (n + Z.of_nat (length l))).
Proof.
  intros Hn. unfold list_getitem.
  assert ((n <? 0) = true) as -> by lia.
  assert (((n + Z.of_nat (length l) <? 0)
           || (Z.of_nat (length l) <=? n + Z.of_nat (length l))) = false) as -> by lia.
  done.
Qed.

Lemma list_getitem_outside {A : Type} (l : list A) (n : Z) :
  n < - Z.of_nat (length l) ∨ Z.of_nat (length l) ≤ n →
  list_getitem l n = Raise (IndexError "list index out of range").
Proof.
  intros Hn. unfold list_getitem.
  destruct (n <? 0) eqn:Hneg.
  - assert (((n + Z.of_nat (length l) <? 0)
             || (Z.of_nat (length l) <=? n + Z.of_nat (length l))) = true) as -> by lia.
    done.
  - assert (((n <? 0) || (Z.of_nat (length l) <=? n)) = true) as -> by lia.
    done.
Qed.


Section generators.
Context {padic torder value : Type}.
Context `{Countable padic, Countable torder}.
Context `{!Ambient padic torder value}.

Abbreviation algebra := (TateAlgebra_generic padic torder).

Lemma gen_in_range (A : algebra) (n : Z) :
  0 ≤ n < Z.of_nat (length (gens A)) →
  ∃ g, gen A n = Ok g ∧ gens A !! Z.to_nat n = Some g.
Proof.
  intros Hn. unfold gen, gens in *. rewrite list_getitem_nonneg by done.
  destruct (getitem_lt (_gens A) (Z.to_nat n)) as (g & -> & Hg); [lia |].
  by exists g.
Qed.

Lemma gen_from_end (A : algebra) (n : Z) :
  - Z.of_nat (length (gens A)) ≤ n < 0 →
  ∃ g, gen A n = Ok g
       ∧ gens A !! Z.to_nat (Z.of_nat (length (gens A)) + n) = Some g.
Proof.
  intros Hn. unfold gen, gens in *. rewrite list_getitem_negative by done.
  rewrite (Z.add_comm n).
  destruct (getitem_lt (_gens A)
              (Z.to_nat (Z.of_nat (length (_gens A)) + n))) as (g & -> & Hg); [lia |].
  by exists g.
Qed.

Lemma gen_outside (A : algebra) (n : Z) :
  n < - Z.of_nat (length (gens A)) ∨ Z.of_nat (length (gens A)) ≤ n →
  gen A n = Raise (ValueError "generator not defined").
Proof.
  intros Hn. unfold gen, gens in *. by rewrite list_getitem_outside.
Qed.

Lemma gen_error_iff (A : algebra) (n : Z) :
  gen A n = Raise (ValueError "generator not defined")
  ↔ n < - Z.of_nat (length (gens A)) ∨ Z.of_nat (length (gens A)) ≤ n.
Proof.
  split; [| apply gen_outside].
  intros Herr.
  destruct (decide (0 ≤ n < Z.of_nat (length (gens A)))) as [Hin|Hout].
  { destruct (gen_in_range A n Hin) as (g & Hg & _). congruence. }
  destruct (decide (- Z.of_nat (length (gens A)) ≤ n < 0)) as [Hneg|Hout'].
  { destruct (gen_from_end A n Hneg) as (g & Hg & _). congruence. }
  lia.
Qed.

Lemma well_formed_gens (A : algebra) :
  well_formed A → length (gens A) = ngens A.
Proof. intros (Hn & _ & Hg). unfold gens, ngens. congruence. Qed.

(** C7 (as amended): on a Tate algebra with [n] generators, [gen] returns
    the [index]-th generator when [0 <= index < n]; it fails with the
    "generator not defined" error if and only if [index >= n] or
    [index < -n]; in particular index 2 on a 2-variable algebra raises
    this error. *)
Theorem gen_index_contract (A : algebra) (index : Z) :
  well_formed A →
  (0 ≤ index < Z.of_nat (ngens A) →
     ∃ g, gen A index = Ok g ∧ gens A !! Z.to_nat index = Some g)
  ∧ (gen A index = Raise (ValueError "generator not defined")
     ↔ Z.of_nat (ngens A) ≤ index ∨ index < - Z.of_nat (ngens A))
  ∧ (ngens A = 2%nat → gen A 2 = Raise (ValueError "generator not defined")).
Proof.
  intros Hwf. pose proof (well_formed_gens A Hwf) as Hlen.
  split; [| split].
  - intros Hi. apply gen_in_range. by rewrite Hlen.
  - rewrite gen_error_iff, Hlen. tauto.
  - intros Hn. apply gen_outside. rewrite Hlen, Hn. right. done.
Qed.

(** C10: on a Tate algebra with [n >= 1] generators, a negative index [i]
    with [-n <= i <= -1] raises nothing and returns the [(n+i)]-th
    generator; the "generator not defined" error is raised only when
    [i >= n] or [i < -n]. *)
Theorem gen_negative_index (A : algebra) (i : Z) :
  well_formed A →
  (1 ≤ ngens A)%nat →
  - Z.of_nat (ngens A) ≤ i ≤ -1 →
  (∃ g, gen A i = Ok g
        ∧ gens A !! Z.to_nat (Z.of_nat (ngens A) + i) = Some g)
  ∧ (∀ j e, gen A j = Raise e →
            e = ValueError "generator not defined"
            ∧ (Z.of_nat (ngens A) ≤ j ∨ j < - Z.of_nat (ngens A))).
Proof.
  intros Hwf Hpos Hi. pose proof (well_formed_gens A Hwf) as Hlen.
  split.
  - rewrite <- Hlen. apply gen_from_end. rewrite Hlen. lia.
  - intros j e Hj.
    destruct (decide (0 ≤ j < Z.of_nat (length (gens A)))) as [Hin|Hout].
    { destruct (gen_in_range A j Hin) as (g & Hg & _). congruence. }
    destruct (decide (- Z.of_nat (length (gens A)) ≤ j < 0)) as [Hneg|Hout'].
    { destruct (gen_from_end A j Hneg) as (g & Hg & _). congruence. }
    assert (j < - Z.of_nat (length (gens A)) ∨ Z.of_nat (length (gens A)) ≤ j)
      as Hj' by lia.
    rewrite (gen_outside A j Hj') in Hj. rewrite <- Hlen.
    split; [congruence | tauto].
Qed.

End generators.

Section construction.
Context {padic torder value : Type}.
Context `{Countable padic, Countable torder}.
Context `{!Ambient padic torder value}.

Abbreviation algebra := (TateAlgebra_generic padic torder).
Abbreviation key := (padic * Z * list Z * list string * torder)%type.

(** *** [__init__] *)

Lemma init_integral_Ok field prec lr names order (AA : TateAlgebra_attrs padic torder) :
  init_integral field prec lr names order = Ok AA →
  _field AA = field ∧ _cap AA = prec ∧ _log_radii AA = lr ∧ _names AA = names
  ∧ _ngens AA = length names ∧ _order AA = order ∧ _integral AA = true
  ∧ _base AA = pAdic_integer_ring field ∧ length (_gens AA) = length names.
Proof.
  unfold init_integral.
  intros (radii & [-> _]%ETuple_Ok & (gs & Hgs & [= <-])%bind_Ok)%bind_Ok. simpl.
  apply comprehension_length in Hgs. rewrite length_seq in Hgs. done.
Qed.

Lemma init_integral_fits field prec lr names order (AA : TateAlgebra_attrs padic torder) :
  init_integral field prec lr names order = Ok AA → forallb fits_int lr = true.
Proof.
  unfold init_integral. by intros (radii & [_ ?]%ETuple_Ok & _)%bind_Ok.
Qed.

Lemma init_integral_total field prec lr names order :
  forallb fits_int lr = true →
  (length names ≤ length lr)%nat →
  ∃ AA, init_integral field prec lr names order = Ok AA.
Proof.
  intros Hfits Hlen. unfold init_integral, ETuple. rewrite Hfits. simpl.
  destruct (comprehension_total
              (λ i, r ← tuple_getitem lr i; Ok {| elt_shift := r; elt_indet := i |})
              (seq 0 (length names))) as [gs ->].
  - intros i [_ Hi]%elem_of_seq.
    destruct (tuple_getitem_lt lr i) as (r & -> & _); [lia |]. by eexists.
  - by eexists.
Qed.

Lemma init_Ok field prec lr names order integral (A : algebra) :
  TateAlgebra_generic_init field prec lr names order integral = Ok A →
  _field A = field ∧ _cap A = prec ∧ _log_radii A = lr ∧ _names A = names
  ∧ _ngens A = length names ∧ _order A = order ∧ _integral A = integral
  ∧ _base A = (if integral then pAdic_integer_ring field else field)
  ∧ length (_gens A) = length names
  ∧ ∃ AA, init_integral field prec lr names order = Ok AA
          ∧ attrs (integer_ring A) = AA
          ∧ _integer_ring (integer_ring A) = Self.
Proof.
  unfold TateAlgebra_generic_init. destruct integral.
  - intros (AA & HAA & [= <-])%bind_Ok. simpl.
    destruct (init_integral_Ok _ _ _ _ _ _ HAA) as (?&?&?&?&?&?&?&?&?).
    repeat split; try done. by exists AA.
  - intros (radii & [-> _]%ETuple_Ok & (AA & HAA & [= <-])%bind_Ok)%bind_Ok. simpl.
    rewrite length_fmap, length_seq.
    repeat split; try done. by exists AA.
Qed.

Lemma init_fits field prec lr names order integral (A : algebra) :
  TateAlgebra_generic_init field prec lr names order integral = Ok A →
  forallb fits_int lr = true.
Proof.
  intros HA. destruct (init_Ok _ _ _ _ _ _ _ HA) as (_&_&_&_&_&_&_&_&_& AA & HAA & _).
  by eapply init_integral_fits.
Qed.

Lemma init_total field prec lr names order integral :
  forallb fits_int lr = true →
  (length names ≤ length lr)%nat →
  ∃ A, TateAlgebra_generic_init field prec lr names order integral = Ok A.
Proof.
  intros Hfits Hlen.
  destruct (init_integral_total field prec lr names order Hfits Hlen) as [AA HAA].
  unfold TateAlgebra_generic_init, ETuple. rewrite HAA, Hfits.
  destruct integral; by eexists.
Qed.

Lemma init_well_formed field prec lr names order integral (A : algebra) :
  length lr = length names →
  TateAlgebra_generic_init field prec lr names order integral = Ok A →
  well_formed A ∧ well_formed (integer_ring A).
Proof.
  intros Hlen HA.
  destruct (init_Ok _ _ _ _ _ _ _ HA)
    as (_ & _ & Hlr & Hn & Hng & _ & _ & _ & Hg & AA & HAA & Hat & _).
  destruct (init_integral_Ok _ _ _ _ _ _ HAA)
    as (_ & _ & Hlr' & Hn' & Hng' & _ & _ & _ & Hg').
  unfold well_formed. rewrite Hat, Hlr, Hn, Hng, Hg, Hlr', Hn', Hng', Hg'. done.
Qed.

(** C5: the integral twin [A.integer_ring()] of a built Tate algebra [A]
    has the integer subring of [A]'s base field as base ring, and the
    variable names and the term order of [A]; the base ring of a full
    algebra is its base field itself. *)
Theorem integer_ring_twin field prec lr names order integral (A : algebra) :
  TateAlgebra_generic_init field prec lr names order integral = Ok A →
  base_ring (integer_ring A) = pAdic_integer_ring (_field A)
  ∧ variable_names (integer_ring A) = variable_names A
  ∧ term_order (integer_ring A) = term_order A
  ∧ (_integral A = false → base_ring A = _field A).
Proof.
  intros HA.
  destruct (init_Ok _ _ _ _ _ _ _ HA)
    as (Hf & _ & _ & Hn & _ & Ho & Hi & Hb & _ & AA & HAA & Hat & _).
  destruct (init_integral_Ok _ _ _ _ _ _ HAA)
    as (_ & _ & _ & Hn' & _ & Ho' & _ & Hb' & _).
  unfold base_ring, variable_names, term_order.
  rewrite Hat, Hb', Hn', Ho', Hf, Hn, Ho.
  repeat split. intros Hfull. rewrite Hi in Hfull. by rewrite Hb, Hfull.
Qed.

(** *** [create_key] *)

Lemma create_key_Ok base prec radii names order (k : key) :
  create_key base prec radii names order = Ok k →
  ∃ K arg ns lr o,
    base = PAdic K ∧ names = Some arg ∧ normalize_names arg = Ok ns
    ∧ (match radii with
       | Scalar v => ∃ r, ZZ v = Ok r ∧ lr = replicate (length ns) r
       | Seq l => length l = length ns ∧ comprehension ZZ l = Ok lr
       end)
    ∧ TermOrder order (length ns) = Ok o
    ∧ k = (fraction_field K,
           match prec with None => pAdic_precision_cap (fraction_field K) | Some p => p end,
           lr, ns, o).
Proof.
  unfold create_key. destruct base as [K| | | |]; try done.
  destruct names as [arg|]; [| done].
  intros (ns & Hns & (lr & Hlr & (o & Ho & [= <-])%bind_Ok)%bind_Ok)%bind_Ok.
  exists K, arg, ns, lr, o. repeat split; try done.
  destruct radii as [v|l].
  - apply bind_Ok in Hlr as (r & Hr & [= <-]). by exists r.
  - case_bool_decide as Hlen; [done |]. split; [| done].
    destruct (decide (length l = length ns)); [done | contradiction].
Qed.

Lemma create_key_lengths base prec radii names order b p lr ns o :
  create_key base prec radii names order = Ok (b, p, lr, ns, o) →
  length lr = length ns.
Proof.
  intros (K & arg & ns' & lr' & o' & _ & _ & _ & Hr & _ & [= _ _ -> -> _])%create_key_Ok.
  destruct radii as [v|l].
  - destruct Hr as (r & _ & ->). by rewrite length_replicate.
  - destruct Hr as [<- Hc]. by apply comprehension_length in Hc.
Qed.

(** C6: in [create_key], a single integer [r] given for the radii of [n]
    variables yields the radius vector [(r,)*n]; a sequence whose length
    differs from [n] raises a [ValueError]; and a sequence of length [n]
    yields its entries coerced to integers, one by one. *)
Theorem create_key_radii (K : padic) (prec : option Z) (names : names_arg)
    (ns : list string) (order : order_arg torder) (o : torder) :
  normalize_names names = Ok ns →
  TermOrder order (length ns) = Ok o →
  let cap := match prec with
             | None => pAdic_precision_cap (fraction_field K)
             | Some p => p
             end in
  (∀ r : Z, ZZ (of_Z r) = Ok r →
     create_key (PAdic K) prec (Scalar (of_Z r)) (Some names) order
     = Ok (fraction_field K, cap, replicate (length ns) r, ns, o))
  ∧ (∀ l : list value, length l ≠ length ns →
       create_key (PAdic K) prec (Seq l) (Some names) order
       = Raise (ValueError "The number of radii does not match the number of variables"))
  ∧ (∀ (l : list value) (lr : list Z), length l = length ns →
       create_key (PAdic K) prec (Seq l) (Some names) order
       = Ok (fraction_field K, cap, lr, ns, o)
       ↔ Forall2 (λ v z, ZZ v = Ok z) l lr).
Proof.
  intros Hns Ho cap. unfold create_key. rewrite Hns. simpl.
  split; [| split].
  - intros r ->. simpl. by rewrite Ho.
  - intros l Hl. by rewrite bool_decide_eq_true_2.
  - intros l lr Hl. rewrite bool_decide_eq_false_2 by (by intros ?).
    rewrite <- comprehension_Forall2.
    destruct (comprehension ZZ l) as [lr'|e]; simpl.
    + rewrite Ho. simpl. split; [by intros [= ->] | by intros [= ->]].
    + split; intros; done.
Qed.

End construction.

Section coercion.
Context {padic torder value : Type}.
Context `{Countable padic, Countable torder}.
Context `{!Ambient padic torder value}.

Abbreviation algebra := (TateAlgebra_generic padic torder).
Abbreviation monoid := (TateTermMonoid padic torder).

Lemma radii_match_indices (logs Rlogs : list Z) (ratio : Z) (indices : list nat) :
  (∀ i, i ∈ indices → (i < length logs)%nat ∧ (i < length Rlogs)%nat) →
  ∃ b, radii_match logs Rlogs ratio indices = Ok b
       ∧ (b = true ↔ ∀ i, i ∈ indices → scaled_at logs Rlogs ratio i).
Proof.
  induction indices as [|i indices IH]; intros Hin; simpl.
  - exists true. split; [done |]. split; [| done]. intros _ i Hi. inversion Hi.
  - destruct (Hin i) as [Hl Hr]; [by left |].
    destruct (getitem_lt logs i Hl) as (l & -> & Hli).
    destruct (getitem_lt Rlogs i Hr) as (r & -> & Hri). simpl.
    case_bool_decide as Hne.
    + exists false. split; [done |]. split; [done |]. intros Hall.
      destruct (Hall i) as (l' & r' & Hl' & Hr' & Heq); [by left |].
      congruence.
    + destruct IH as (b & -> & Hb); [intros; apply Hin; by right |].
      exists b. split; [done |]. rewrite Hb. split.
      * intros Hall j [->|Hj]%elem_of_cons; [| by apply Hall].
        exists l, r. split; [done |]. split; [done |].
        by destruct (decide (l = ratio * r)).
      * intros Hall j Hj. apply Hall. by right.
Qed.

Lemma radii_match_range (logs Rlogs : list Z) (ratio : Z) (n : nat) :
  length logs = n → length Rlogs = n →
  ∃ b, radii_match logs Rlogs ratio (seq 0 n) = Ok b
       ∧ (b = true ↔ ∀ i, (i < n)%nat → scaled_at logs Rlogs ratio i).
Proof.
  intros Hl Hr.
  destruct (radii_match_indices logs Rlogs ratio (seq 0 n)) as (b & Hb & Hiff).
  { intros i [_ Hi]%elem_of_seq. lia. }
  exists b. split; [done |]. rewrite Hiff. split.
  - intros Hall i Hi. apply Hall, elem_of_seq. lia.
  - intros Hall i [_ Hi]%elem_of_seq. apply Hall. lia.
Qed.

Lemma as_structure_lengths (R : parent padic torder) Rbase Rlogs Rnames Rorder :
  as_structure R = Some (Rbase, Rlogs, Rnames, Rorder) →
  well_formed_parent R →
  length Rlogs = length Rnames.
Proof.
  destruct R as [K|T|B|owner x|name]; simpl; try done.
  - intros [= _ <- <- _] [-> (_ & Hlr & _)]. done.
  - intros [= _ <- <- _] (_ & Hlr & _). done.
Qed.

(** The coercion test of an algebra never raises on built structures, and
    past the scalar test it accepts exactly the structures of C1. *)
Lemma coerce_map_from_spec (A : algebra) (R : parent padic torder) :
  well_formed A → well_formed_parent R →
  ∃ b, TateAlgebra_coerce_map_from_ A R = Ok b
       ∧ (b = true ↔
            pAdic_has_coerce_map_from (base_ring A) R = true
            ∨ ∃ Rbase Rlogs Rnames Rorder,
                as_structure R = Some (Rbase, Rlogs, Rnames, Rorder)
                ∧ pAdic_has_coerce_map_from (base_ring A) (PAdic Rbase) = true
                ∧ variable_names A = Rnames
                ∧ term_order A = Rorder
                ∧ ∀ i, (i < ngens A)%nat →
                       scaled_at (log_radii A) Rlogs
                         (Z.pos (absolute_e (base_ring A))
                          `div` Z.pos (absolute_e Rbase)) i).
Proof.
  intros (Hng & Hlr & _) HR.
  unfold TateAlgebra_coerce_map_from_, base_ring, variable_names, term_order,
    ngens, log_radii.
  destruct (pAdic_has_coerce_map_from (_base A) R) eqn:Hscalar.
  { exists true. split; [done |]. split; [by left | done]. }
  destruct (as_structure R) as [[[[Rbase Rlogs] Rnames] Rorder]|] eqn:HS.
  2:{ exists false. split; [done |]. split; [done |].
      intros [? | (? & ? & ? & ? & ? & _)]; done. }
  pose proof (as_structure_lengths R _ _ _ _ HS HR) as HRlen.
  destruct (pAdic_has_coerce_map_from (_base A) (PAdic Rbase)) eqn:Hbase; simpl.
  2:{ exists false. split; [done |]. split; [done |].
      intros [? | (? & ? & ? & ? & [= <- <- <- <-] & ? & _)]; congruence. }
  case_bool_decide as Hnames; simpl.
  2:{ exists false. split; [done |]. split; [done |].
      intros [? | (? & ? & ? & ? & [= <- <- <- <-] & _ & ? & _)]; done. }
  case_bool_decide as Horder; simpl.
  2:{ exists false. split; [done |]. split; [done |].
      intros [? | (? & ? & ? & ? & [= <- <- <- <-] & _ & _ & ? & _)]; done. }
  destruct (radii_match_range (_log_radii A) Rlogs
              (Z.pos (absolute_e (_base A)) `div` Z.pos (absolute_e Rbase))
              (_ngens A)) as (b & -> & Hb); [congruence | congruence |].
  exists b. split; [done |]. rewrite Hb. split.
  - intros Hall. right. by exists Rbase, Rlogs, Rnames, Rorder.
  - intros [? | (? & ? & ? & ? & [= <- <- <- <-] & _ & _ & _ & Hall)]; done.
Qed.

(** C1: for a Tate algebra [A] and a Tate algebra or term monoid [R] that
    the base ring of [A] does not accept as a ring of scalars, [A] accepts
    a coercion from [R] exactly when the base ring of [R] coerces into the
    base ring of [A], the variable names are equal in the same order, the
    term orders are equal and [A.radius[i] = ratio * R.radius[i]] at every
    variable index [i], with [ratio] the floor quotient of the absolute
    ramification indices; different names, or an index violating the
    relation, make the test return false. *)
Theorem coerce_map_from_structure (A : algebra) (R : parent padic torder)
    (Rbase : padic) (Rlogs : list Z) (Rnames : list string) (Rorder : torder) :
  as_structure R = Some (Rbase, Rlogs, Rnames, Rorder) →
  well_formed A → well_formed_parent R →
  pAdic_has_coerce_map_from (base_ring A) R = false →
  let ratio := Z.pos (absolute_e (base_ring A)) `div` Z.pos (absolute_e Rbase) in
  ∃ b, TateAlgebra_coerce_map_from_ A R = Ok b
       ∧ (b = true ↔
            pAdic_has_coerce_map_from (base_ring A) (PAdic Rbase) = true
            ∧ variable_names A = Rnames
            ∧ term_order A = Rorder
            ∧ ∀ i, (i < ngens A)%nat →
                   ∃ r s, log_radii A !! i = Some r ∧ Rlogs !! i = Some s
                          ∧ r = ratio * s)
       ∧ (variable_names A ≠ Rnames → b = false)
       ∧ (∀ i r s, log_radii A !! i = Some r → Rlogs !! i = Some s →
                   r ≠ ratio * s → b = false).
Proof.
  intros HS HA HR Hscalar ratio.
  destruct (coerce_map_from_spec A R HA HR) as (b & Hb & Hiff).
  assert (b = true ↔
            pAdic_has_coerce_map_from (base_ring A) (PAdic Rbase) = true
            ∧ variable_names A = Rnames
            ∧ term_order A = Rorder
            ∧ ∀ i, (i < ngens A)%nat → scaled_at (log_radii A) Rlogs ratio i)
    as Hiff'.
  { rewrite Hiff. split.
    - intros [? | (? & ? & ? & ? & HS' & ?)]; [congruence |].
      rewrite HS in HS'. by injection HS' as <- <- <- <-.
    - intros ?. right. by exists Rbase, Rlogs, Rnames, Rorder. }
  exists b. split; [done |]. split; [done |]. split.
  - intros Hne. destruct b; [| done]. by destruct Hiff' as [(_ & ? & _) _].
  - intros i r s Hr Hs Hne. destruct b; [| done].
    destruct Hiff' as [(_ & _ & _ & Hall) _]; [done |].
    destruct (Hall i) as (r' & s' & Hr' & Hs' & Heq).
    + destruct HA as (Hng & Hlr & _). unfold ngens, log_radii in *.
      rewrite Hng, <- Hlr. by eapply lookup_lt_Some.
    + congruence.
Qed.

(** Apart from algebra elements, the test of a term monoid is the rule of
    owners: it accepts [R] exactly when its base ring accepts [R] directly
    or [R] is another term monoid whose owning algebra is accepted by the
    coercion test of the monoid's owning algebra; a full Tate algebra
    structure is answered [None] past the scalar test. *)
Theorem monoid_coerce_map_from (T : monoid) (R : parent padic torder) :
  (∀ owner x, R ≠ Element owner x) →
  (truthy (TateTermMonoid_coerce_map_from_ T R) = true
   ↔ pAdic_has_coerce_map_from (T_base T) R = true
     ∨ ∃ U, R = Monoid U
            ∧ TateAlgebra_has_coerce_map_from (T_parent_algebra T)
                (Algebra (algebra_of_series U)) = Ok true)
  ∧ (∀ B, R = Algebra B →
          pAdic_has_coerce_map_from (T_base T) R = false →
          TateTermMonoid_coerce_map_from_ T R = Ok None).
Proof.
  intros HnotElt. unfold TateTermMonoid_coerce_map_from_. split.
  - destruct (pAdic_has_coerce_map_from (T_base T) R) eqn:Hscalar; simpl.
    { split; [by left | done]. }
    destruct R as [K|U|B|owner x|name]; simpl.
    + split; [done |]. by intros [? | (? & ? & _)].
    + destruct (TateAlgebra_has_coerce_map_from (T_parent_algebra T)
                  (Algebra (algebra_of_series U))) as [[]|e] eqn:Hacc; simpl.
      * split; [| done]. intros _. right. by exists U.
      * split; [done |]. intros [? | (? & [= <-] & ?)]; congruence.
      * split; [done |]. intros [? | (? & [= <-] & ?)]; congruence.
    + split; [done |]. by intros [? | (? & ? & _)].
    + by destruct (HnotElt owner x).
    + split; [done |]. by intros [? | (? & ? & _)].
  - intros B -> ->. done.
Qed.

(** C9: the pushout of a Tate algebra with anything that is not a p-adic
    ring or field (another Tate algebra included) is [None], without an
    exception and without touching the registry; and the coercion tests
    of algebras and term monoids answer built structures with a result,
    never with an exception. *)
Theorem failures_are_results (A : algebra) (T : monoid) (R : parent padic torder)
    (reg : registry padic torder) :
  ((∀ K, R ≠ PAdic K) → _pushout_ A R reg = Ok (None, reg))
  ∧ (well_formed A → well_formed_parent R →
     ∃ b, TateAlgebra_coerce_map_from_ A R = Ok b)
  ∧ (well_formed (T_parent_algebra T) → well_formed_parent R →
     ∃ b, TateTermMonoid_coerce_map_from_ T R = Ok b).
Proof.
  split; [| split].
  - intros HR. destruct R as [K| | | |]; try done. by destruct (HR K).
  - intros HA HR. destruct (coerce_map_from_spec A R HA HR) as (b & Hb & _).
    by exists b.
  - intros HT HR. unfold TateTermMonoid_coerce_map_from_.
    destruct (pAdic_has_coerce_map_from (T_base T) R); [by eexists |].
    destruct R as [K|U|B|owner x|name]; try by eexists.
    + destruct HR as [_ HU].
      destruct (coerce_map_from_spec (T_parent_algebra T)
                  (Algebra (algebra_of_series U)) HT HU) as (b & Hb & _).
      unfold TateAlgebra_has_coerce_map_from. rewrite Hb. by eexists.
    + destruct (coerce_map_from_spec (T_parent_algebra T)
                  (Element owner x) HT I) as (b & Hb & _).
      unfold TateAlgebra_has_coerce_map_from. rewrite Hb. by eexists.
Qed.

End coercion.

Section factory.
Context {padic torder value : Type}.
Context `{Countable padic, Countable torder}.
Context `{!Ambient padic torder value}.

Abbreviation algebra := (TateAlgebra_generic padic torder).
Abbreviation key := (padic * Z * list Z * list string * torder)%type.

Implicit Types (k : key) (reg : registry padic torder).

Lemma get_object_hit k reg inst :
  cache reg !! k = Some inst → get_object k reg = Ok (inst, reg).
Proof. intros Hk. unfold get_object. by rewrite Hk. Qed.

Lemma get_object_Ok k reg inst reg' :
  get_object k reg = Ok (inst, reg') →
  (cache reg !! k = Some inst ∧ reg' = reg)
  ∨ (cache reg !! k = None
     ∧ create_object k = Ok (inst_obj inst)
     ∧ inst_id inst = next_id reg
     ∧ reg' = {| cache := <[k := inst]> (cache reg); next_id := S (next_id reg) |}).
Proof.
  unfold get_object. destruct (cache reg !! k) as [inst0|] eqn:Hk.
  - intros [= <- <-]. by left.
  - intros (A & HA & [= <- <-])%bind_Ok. right. done.
Qed.

Lemma get_object_registered k reg inst reg' :
  get_object k reg = Ok (inst, reg') → cache reg' !! k = Some inst.
Proof.
  intros [[Hk ->] | (_ & _ & _ & ->)]%get_object_Ok; [done |].
  simpl. apply lookup_insert_eq.
Qed.

Lemma get_object_keeps k reg inst reg' k0 inst0 :
  get_object k reg = Ok (inst, reg') →
  cache reg !! k0 = Some inst0 → cache reg' !! k0 = Some inst0.
Proof.
  intros [[_ ->] | (Hk & _ & _ & ->)]%get_object_Ok Hk0; [done |].
  simpl. rewrite lookup_insert_ne; [done |]. intros ->. congruence.
Qed.

Lemma reachable_keeps reg reg' k0 inst0 :
  reachable reg reg' →
  cache reg !! k0 = Some inst0 → cache reg' !! k0 = Some inst0.
Proof.
  induction 1 as [|k inst reg1 reg2 _ IH Hcall]; intros Hk0; [done |].
  eapply get_object_keeps; [done |]. by apply IH.
Qed.

Lemma registry_ok_empty : registry_ok (empty_registry (padic := padic) (torder := torder)).
Proof. intros k inst. simpl. by rewrite lookup_empty. Qed.

Lemma get_object_registry_ok k reg inst reg' :
  registry_ok reg → get_object k reg = Ok (inst, reg') →
  registry_ok reg' ∧ create_object k = Ok (inst_obj inst).
Proof.
  intros Hok [[Hk ->] | (Hk & HA & _ & ->)]%get_object_Ok.
  - split; [done |]. by eapply Hok.
  - split; [| done]. intros k0 inst0. simpl.
    destruct (decide (k = k0)) as [<-|Hne].
    + rewrite lookup_insert_eq. by intros [= <-].
    + rewrite lookup_insert_ne by done. apply Hok.
Qed.

Lemma reachable_registry_ok reg reg' :
  registry_ok reg → reachable reg reg' → registry_ok reg'.
Proof.
  intros Hok. induction 1 as [|k inst reg1 reg2 _ IH Hcall]; [done |].
  by eapply get_object_registry_ok.
Qed.

Lemma ids_unique_empty : ids_unique (empty_registry (padic := padic) (torder := torder)).
Proof. split; intros *; simpl; by rewrite lookup_empty. Qed.

(** Two keys are never given the same identity. *)
Lemma get_object_ids_unique k reg inst reg' :
  ids_unique reg → get_object k reg = Ok (inst, reg') → ids_unique reg'.
Proof.
  intros [Hlt Hinj] [[Hk ->] | (Hk & HA & Hid & ->)]%get_object_Ok; [done |].
  split; simpl.
  - intros k0 inst0. destruct (decide (k = k0)) as [<-|Hne].
    + rewrite lookup_insert_eq. intros [= <-]. lia.
    + rewrite lookup_insert_ne by done. intros ?%Hlt. lia.
  - intros k1 k2 i1 i2.
    destruct (decide (k = k1)) as [<-|Hne1], (decide (k = k2)) as [<-|Hne2];
      rewrite ?lookup_insert_eq, ?lookup_insert_ne by done; try done.
    + intros [= <-] ?%Hlt. lia.
    + intros ?%Hlt [= <-]. lia.
    + apply Hinj.
Qed.

Lemma reachable_ids_unique reg reg' :
  ids_unique reg → reachable reg reg' → ids_unique reg'.
Proof.
  intros Hids. induction 1 as [|k inst reg1 reg2 _ IH Hcall]; [done |].
  by eapply get_object_ids_unique.
Qed.

(** C4: two calls of the factory whose arguments give the same key return
    the identical instance (same identity, same structure), whatever calls
    happened in between, and the second call leaves the registry as it is;
    a call changes the registry by at most interning, under its key, the
    structure built from the key; and the identity of the instance is
    shared with no other key. *)
Theorem factory_interning base1 prec1 radii1 names1 order1
    base2 prec2 radii2 names2 order2 k reg inst reg1 reg2 :
  create_key base1 prec1 radii1 names1 order1 = Ok k →
  create_key base2 prec2 radii2 names2 order2 = Ok k →
  TateAlgebra base1 prec1 radii1 names1 order1 reg = Ok (inst, reg1) →
  reachable reg1 reg2 →
  TateAlgebra base2 prec2 radii2 names2 order2 reg2 = Ok (inst, reg2)
  ∧ (reg1 = reg
     ∨ (cache reg !! k = None
        ∧ create_object k = Ok (inst_obj inst)
        ∧ inst_id inst = next_id reg
        ∧ reg1 = {| cache := <[k := inst]> (cache reg);
                    next_id := S (next_id reg) |}))
  ∧ (ids_unique reg →
     ∀ k' inst', cache reg2 !! k' = Some inst' →
                 inst_id inst' = inst_id inst → k' = k).
Proof.
  intros Hk1 Hk2. unfold TateAlgebra. rewrite Hk1, Hk2. simpl.
  intros Hcall Hreach.
  assert (cache reg2 !! k = Some inst) as Hreg2.
  { eapply reachable_keeps; [done |]. by eapply get_object_registered. }
  split; [| split].
  - by apply get_object_hit.
  - apply get_object_Ok in Hcall as [[_ ->] | ?]; [by left | by right].
  - intros Hids k' inst' Hk' Hid.
    assert (ids_unique reg2) as [_ Hinj].
    { eapply reachable_ids_unique; [| done]. by eapply get_object_ids_unique. }
    by eapply Hinj.
Qed.

End factory.

Section pushout.
Context {padic torder value : Type}.
Context `{Countable padic, Countable torder}.
Context `{!Ambient padic torder value}.

Abbreviation algebra := (TateAlgebra_generic padic torder).
Abbreviation key := (padic * Z * list Z * list string * torder)%type.

(** [ZZ] applied to an integer is that integer. *)
Hypothesis ZZ_of_Z : ∀ z : Z, ZZ (of_Z z) = Ok z.

Lemma comprehension_ZZ_of_Z (l : list Z) : comprehension ZZ (of_Z <$> l) = Ok l.
Proof.
  apply comprehension_Forall2. induction l as [|z l IH]; simpl; constructor;
    [apply ZZ_of_Z | done].
Qed.

(** The key that [_pushout_] asks the factory for. *)
Lemma pushout_key (A : algebra) (nb : padic) (e cap : Z) :
  well_formed A → canonical A →
  create_key (PAdic nb) (Some cap) (Seq (of_Z <$> ((λ r, e * r) <$> _log_radii A)))
    (Some (NamesSeq (_names A))) (OrderObj (_order A))
  = Ok (fraction_field nb, cap, (λ r, e * r) <$> _log_radii A, _names A, _order A).
Proof.
  intros (_ & Hlr & _) [Hnames Horder]. unfold create_key.
  rewrite Hnames. simpl.
  rewrite bool_decide_eq_false_2 by (rewrite !length_fmap; by intros ?).
  rewrite comprehension_ZZ_of_Z. simpl. by rewrite Horder.
Qed.

(** One run of [_pushout_] against a p-adic ring or field. *)
Lemma pushout_run (A : algebra) (R nb : padic) (reg : registry padic torder) :
  well_formed A → canonical A → registry_ok reg →
  pushout (_base A) R = Ok nb →
  let e := Z.pos (absolute_e nb) `div` Z.pos (absolute_e (_base A)) in
  forallb fits_int ((λ r, e * r) <$> _log_radii A) = true →
  ∃ F reg',
    TateAlgebra (PAdic nb) (Some (e * _cap A))
      (Seq (of_Z <$> ((λ r, e * r) <$> _log_radii A)))
      (Some (NamesSeq (_names A))) (OrderObj (_order A)) reg = Ok (F, reg')
    ∧ TateAlgebra_generic_init (fraction_field nb) (e * _cap A)
        ((λ r, e * r) <$> _log_radii A) (_names A) (_order A) false
      = Ok (inst_obj F)
    ∧ registry_ok reg'
    ∧ _pushout_ A (PAdic R) reg
      = Ok (Some (if is_field nb then inst_obj F else integer_ring (inst_obj F)),
            reg').
Proof.
  intros HA Hcan Hok Hnb e Hfits.
  pose proof (pushout_key A nb e (e * _cap A) HA Hcan) as Hkey.
  set (k := (fraction_field nb, e * _cap A, (λ r, e * r) <$> _log_radii A,
             _names A, _order A)) in *.
  assert (∃ F reg', get_object k reg = Ok (F, reg')) as (F & reg' & Hget).
  { unfold get_object. destruct (cache reg !! k) as [inst|]; [by eexists _, _ |].
    destruct (init_total (fraction_field nb) (e * _cap A)
                ((λ r, e * r) <$> _log_radii A) (_names A) (_order A) false)
      as [B HB]; [exact Hfits | |].
    { rewrite length_fmap. destruct HA as (_ & -> & _). done. }
    unfold create_object, k. rewrite HB. simpl. by eexists _, _. }
  destruct (get_object_registry_ok k reg F reg' Hok Hget) as [Hok' Hobj].
  exists F, reg'.
  assert (TateAlgebra (PAdic nb) (Some (e * _cap A))
            (Seq (of_Z <$> ((λ r, e * r) <$> _log_radii A)))
            (Some (NamesSeq (_names A))) (OrderObj (_order A)) reg = Ok (F, reg'))
    as Hcall.
  { unfold TateAlgebra. rewrite Hkey. simpl. done. }
  split; [done |]. split; [done |]. split; [done |].
  unfold _pushout_. rewrite Hnb. simpl. fold e. rewrite Hcall. simpl.
  by destruct (is_field nb).
Qed.

(** C2 (as amended): for a Tate algebra [A] with precision cap [p], log
    radii [(r_i)], names [N] and order [O], and a p-adic ring or field [R]
    with [new_base = pushout(A.base, R)], where [e] is the floor quotient of
    the absolute ramification index of [new_base] by that of [A]'s base:
    provided every scaled radius [e*r_i] fits a C [int] (the entries of the
    exponent tuple that stores the radii), the pushout of [A] with [R] is a
    Tate algebra with names [N] and order [O] over [new_base], with
    precision cap [e*p] and log radii [(e*r_i)]. *)
Theorem pushout_scaling (A : algebra) (R nb : padic) (reg : registry padic torder) :
  well_formed A → canonical A → registry_ok reg →
  pushout (base_ring A) R = Ok nb →
  (is_field nb = true → fraction_field nb = nb) →
  (is_field nb = false → pAdic_integer_ring (fraction_field nb) = nb) →
  let e := Z.pos (absolute_e nb) `div` Z.pos (absolute_e (base_ring A)) in
  forallb fits_int ((λ r, e * r) <$> log_radii A) = true →
  ∃ B reg',
    _pushout_ A (PAdic R) reg = Ok (Some B, reg')
    ∧ variable_names B = variable_names A
    ∧ term_order B = term_order A
    ∧ base_ring B = nb
    ∧ precision_cap B = e * precision_cap A
    ∧ log_radii B = (λ r, e * r) <$> log_radii A
    ∧ (∀ i r, log_radii A !! i = Some r → log_radii B !! i = Some (e * r)).
Proof.
  intros HA Hcan Hok Hnb Hfld Hring e Hfits.
  destruct (pushout_run A R nb reg HA Hcan Hok Hnb Hfits)
    as (F & reg' & _ & HF & _ & Hrun).
  fold (base_ring A) in Hrun. fold e in HF, Hrun.
  destruct (init_Ok _ _ _ _ _ _ _ HF)
    as (Hf & Hc & Hlr & Hn & _ & Ho & _ & Hb & _ & AA & HAA & Hat & _).
  destruct (init_integral_Ok _ _ _ _ _ _ HAA)
    as (_ & Hc' & Hlr' & Hn' & _ & Ho' & _ & Hb' & _).
  eexists _, reg'. split; [exact Hrun |].
  unfold variable_names, term_order, base_ring, precision_cap, log_radii.
  destruct (is_field nb) eqn:Hk.
  - rewrite Hn, Ho, Hb, Hc, Hlr, Hfld by done. repeat split.
    intros i r Hi. by rewrite list_lookup_fmap, Hi.
  - rewrite Hat, Hn', Ho', Hb', Hc', Hlr', Hring by done. repeat split.
    intros i r Hi. by rewrite list_lookup_fmap, Hi.
Qed.

(** C3 (as amended): when the pushout of a Tate algebra structure with a
    p-adic ring or field is defined and the full algebra over the
    pushed-out base ring can be built (the scaled log radii fit a C [int]),
    that full algebra is returned when the pushed-out base ring is a field,
    and its integral subring when the pushed-out base ring is a ring rather
    than a field, whichever view the structure being pushed out is. *)
Theorem pushout_integrality (A : algebra) (R nb : padic) (reg : registry padic torder) :
  well_formed A → canonical A → registry_ok reg →
  pushout (base_ring A) R = Ok nb →
  let e := Z.pos (absolute_e nb) `div` Z.pos (absolute_e (base_ring A)) in
  forallb fits_int ((λ r, e * r) <$> log_radii A) = true →
  ∃ F reg',
    TateAlgebra (PAdic nb) (Some (e * precision_cap A))
      (Seq (of_Z <$> ((λ r, e * r) <$> log_radii A)))
      (Some (NamesSeq (variable_names A))) (OrderObj (term_order A)) reg
    = Ok (F, reg')
    ∧ _integral (inst_obj F) = false
    ∧ _integral (integer_ring (inst_obj F)) = true
    ∧ _pushout_ A (PAdic R) reg
      = Ok (Some (if is_field nb then inst_obj F else integer_ring (inst_obj F)),
            reg').
Proof.
  intros HA Hcan Hok Hnb e Hfits.
  destruct (pushout_run A R nb reg HA Hcan Hok Hnb Hfits)
    as (F & reg' & Hcall & HF & _ & Hrun).
  destruct (init_Ok _ _ _ _ _ _ _ HF)
    as (_ & _ & _ & _ & _ & _ & Hi & _ & _ & AA & HAA & Hat & _).
  destruct (init_integral_Ok _ _ _ _ _ _ HAA) as (_ & _ & _ & _ & _ & _ & Hi' & _).
  exists F, reg'. split; [exact Hcall |]. split; [done |]. split; [| exact Hrun].
  by rewrite Hat.
Qed.

End pushout.

Section invariants.
Context {padic torder value : Type}.
Context `{Countable padic, Countable torder}.
Context `{!Ambient padic torder value}.

(** Normalised names and a resolved order are left as they are. *)
Hypothesis normalize_names_normal :
  ∀ arg ns, normalize_names arg = Ok ns → normalize_names (NamesSeq ns) = Ok ns.
Hypothesis TermOrder_resolved :
  ∀ arg n o, TermOrder arg n = Ok o → TermOrder (OrderObj o) n = Ok o.

(** What the factory returns satisfies the invariants, and so does its
    ring of integers. *)
Lemma factory_builds_well_formed base prec radii names order
    (reg : registry padic torder) F reg' :
  registry_ok reg →
  TateAlgebra base prec radii names order reg = Ok (F, reg') →
  well_formed (inst_obj F) ∧ canonical (inst_obj F)
  ∧ well_formed (integer_ring (inst_obj F)) ∧ canonical (integer_ring (inst_obj F))
  ∧ registry_ok reg'.
Proof.
  intros Hok. unfold TateAlgebra. intros (k & Hk & Hget)%bind_Ok.
  destruct (get_object_registry_ok k reg F reg' Hok Hget) as [Hok' Hobj].
  destruct k as [[[[b p] lr] ns] o].
  pose proof (create_key_lengths _ _ _ _ _ _ _ _ _ _ Hk) as Hlen.
  destruct (create_key_Ok _ _ _ _ _ _ Hk)
    as (K & arg & ns' & lr' & o' & _ & _ & Hns & _ & Ho & [= _ _ _ <- <-]).
  change (TateAlgebra_generic_init b p lr ns o false = Ok (inst_obj F)) in Hobj.
  destruct (init_well_formed _ _ _ _ _ _ _ Hlen Hobj) as [Hwf Hwf'].
  destruct (init_Ok _ _ _ _ _ _ _ Hobj)
    as (_ & _ & _ & Hn & _ & Hord & _ & _ & _ & AA & HAA & Hat & _).
  destruct (init_integral_Ok _ _ _ _ _ _ HAA) as (_ & _ & _ & Hn' & _ & Hord' & _).
  split; [exact Hwf |]. split.
  { unfold canonical. rewrite Hn, Hord. eauto. }
  split; [exact Hwf' |]. split; [| exact Hok'].
  unfold canonical. rewrite Hat, Hn', Hord'. eauto.
Qed.

End invariants.

(** * The docstring examples, run on the reference collaborators *)

Import Dyadic.

Lemma dyadic_ZZ_of_Z (z : Z) : ZZ (of_Z z) = Ok z.
Proof. reflexivity. Qed.

Lemma A_xy_built : create_object key_xy = Ok A_xy.
Proof. reflexivity. Qed.

Lemma A_uv_built :
  TateAlgebra_generic_init Q2 20 [1; 2] ["u"; "v"] "degrevlex" false = Ok A_uv.
Proof. reflexivity. Qed.

Lemma B_xy_built :
  TateAlgebra_generic_init Q2 20 [1; -1] ["x"; "y"] "degrevlex" false = Ok B_xy.
Proof. reflexivity. Qed.

Lemma C_xy_built :
  TateAlgebra_generic_init Q2pi 20 [2; -2] ["x"; "y"] "degrevlex" false = Ok C_xy.
Proof. reflexivity. Qed.

(** The doctests of the two coercion tests. [make K radii names order] is
    what [TateAlgebra(K, log_radii=radii, names=names, order=order)]
    builds. *)
Example doctest_scalars :
  TateAlgebra_coerce_map_from_ A_xy (OtherParent "ZZ") = Ok true
  ∧ TateAlgebra_coerce_map_from_ A_xy (OtherParent "GF(2)") = Ok false
  ∧ TateTermMonoid_coerce_map_from_ T_xy (OtherParent "ZZ") = Ok (Some true)
  ∧ TateTermMonoid_coerce_map_from_ T_xy (OtherParent "GF(2)") = Ok None.
Proof. repeat split. Qed.

Example doctest_unramified_extension :
  (B ← make Z4 [0; 0] ["x"; "y"] "degrevlex";
   b1 ← TateAlgebra_coerce_map_from_ B (Algebra A_xy);
   b2 ← TateAlgebra_coerce_map_from_ A_xy (Algebra B);
   u1 ← TateTermMonoid_coerce_map_from_ (monoid_of_terms B) (Monoid T_xy);
   u2 ← TateTermMonoid_coerce_map_from_ T_xy (Monoid (monoid_of_terms B));
   u3 ← TateTermMonoid_coerce_map_from_ (monoid_of_terms B) (Algebra A_xy);
   u4 ← TateTermMonoid_coerce_map_from_ T_xy (Algebra B);
   Ok (b1, b2, u1, u2, u3, u4))
  = Ok (true, false, Some true, Some false, None, None).
Proof. reflexivity. Qed.

Example doctest_names_and_order :
  (Bxz ← make Z2 [0; 0] ["x"; "z"] "degrevlex";
   Byx ← make Z2 [0; 0] ["y"; "x"] "degrevlex";
   Blex ← make Z2 [0; 0] ["x"; "y"] "lex";
   b1 ← TateAlgebra_coerce_map_from_ A_xy (Algebra Bxz);
   b2 ← TateAlgebra_coerce_map_from_ Byx (Algebra A_xy);
   b3 ← TateAlgebra_coerce_map_from_ A_xy (Algebra Byx);
   b4 ← TateAlgebra_coerce_map_from_ Blex (Algebra A_xy);
   Ok (b1, b2, b3, b4))
  = Ok (false, false, false, false).
Proof. reflexivity. Qed.

Example doctest_radii :
  (C1 ← make Z2pi [1; -1] ["x"; "y"] "degrevlex";
   b1 ← TateAlgebra_coerce_map_from_ B_xy (Algebra A_xy);
   b2 ← TateAlgebra_coerce_map_from_ C1 (Algebra B_xy);
   b3 ← TateAlgebra_coerce_map_from_ C_xy (Algebra B_xy);
   Ok (b1, b2, b3))
  = Ok (false, false, true).
Proof. reflexivity. Qed.

(** [C.has_coerce_map_from(B)] is [True]: the ratio is 2. *)
Lemma coerce_map_from_structure_witness :
  ∃ b, TateAlgebra_coerce_map_from_ C_xy (Algebra B_xy) = Ok b
       ∧ (b = true ↔
            pAdic_has_coerce_map_from Q2pi (PAdic Q2) = true
            ∧ variable_names C_xy = ["x"; "y"]
            ∧ term_order C_xy = "degrevlex"
            ∧ ∀ i, (i < ngens C_xy)%nat →
                   ∃ r s, log_radii C_xy !! i = Some r ∧ [1; -1] !! i = Some s
                          ∧ r = 2 * s)
       ∧ (variable_names C_xy ≠ ["x"; "y"] → b = false)
       ∧ (∀ i r s, log_radii C_xy !! i = Some r → [1; -1] !! i = Some s →
                   r ≠ 2 * s → b = false).
Proof.
  refine (coerce_map_from_structure C_xy (Algebra B_xy) Q2 [1; -1] ["x"; "y"]
            "degrevlex" _ _ _ _).
  - reflexivity.
  - repeat split.
  - repeat split.
  - reflexivity.
Defined.

(** The doctests of [_pushout_]: base ring, integrality and log radii of
    [pushout(A, R1)], [pushout(A, R2)], [pushout(AA, R1)] and
    [pushout(AA, R2.fraction_field())]. *)
Example doctest_pushout :
  summary (_pushout_ A_uv (PAdic Z4) empty_registry) = Some (Q4, false, [1; 2])
  ∧ summary (_pushout_ A_uv (PAdic Z2pi) empty_registry) = Some (Q2pi, false, [2; 4])
  ∧ summary (_pushout_ (integer_ring A_uv) (PAdic Z4) empty_registry)
    = Some (Z4, true, [1; 2])
  ∧ summary (_pushout_ (integer_ring A_uv) (PAdic Q2pi) empty_registry)
    = Some (Q2pi, false, [2; 4]).
Proof. repeat split; vm_compute; reflexivity. Qed.

(** [pushout(AA, R1)] of the docstring: the ring of integers over [Zq(4)]. *)
Lemma pushout_scaling_witness :
  ∃ B reg',
    _pushout_ (integer_ring A_uv) (PAdic Z4) empty_registry = Ok (Some B, reg')
    ∧ variable_names B = ["u"; "v"]
    ∧ term_order B = "degrevlex"
    ∧ base_ring B = Z4
    ∧ precision_cap B = 1 * 20
    ∧ log_radii B = (λ r, 1 * r) <$> [1; 2]
    ∧ (∀ i r, [1; 2] !! i = Some r → log_radii B !! i = Some (1 * r)).
Proof.
  refine (pushout_scaling dyadic_ZZ_of_Z (integer_ring A_uv) Z4 Z4 empty_registry
            _ _ _ _ _ _ _).
  - repeat split.
  - split; reflexivity.
  - apply registry_ok_empty.
  - reflexivity.
  - simpl. discriminate.
  - reflexivity.
  - reflexivity.
Defined.

(** With radii [2^30] the doubled radii no longer fit the exponent tuple:
    the pushout against the Eisenstein extension raises. *)
Lemma pushout_scales_counterexample :
  ¬ pushout_scales A_big Z2pi Q2pi empty_registry.
Proof.
  intros (B & reg' & Hrun & _). vm_compute in Hrun. discriminate.
Qed.

(** [pushout(A, R2)] of the docstring: a full algebra over the field of
    fractions of the Eisenstein extension. *)
Lemma pushout_integrality_witness :
  ∃ F reg',
    TateAlgebra (PAdic Q2pi) (Some (2 * 20)) (Seq (of_Z <$> ((λ r, 2 * r) <$> [1; 2])))
      (Some (NamesSeq ["u"; "v"])) (OrderObj "degrevlex") empty_registry
    = Ok (F, reg')
    ∧ _integral (inst_obj F) = false
    ∧ _integral (integer_ring (inst_obj F)) = true
    ∧ _pushout_ A_uv (PAdic Z2pi) empty_registry
      = Ok (Some (if is_field Q2pi then inst_obj F else integer_ring (inst_obj F)),
            reg').
Proof.
  refine (pushout_integrality dyadic_ZZ_of_Z A_uv Z2pi Q2pi empty_registry _ _ _ _ _).
  - repeat split.
  - split; reflexivity.
  - apply registry_ok_empty.
  - reflexivity.
  - reflexivity.
Defined.

(** An integral-subring view pushed out against a field is a full algebra:
    [pushout(AA, R2.fraction_field())] of the docstring. *)
Lemma pushout_keeps_integral_view_counterexample :
  ¬ pushout_keeps_integral_view (integer_ring A_uv) (PAdic Q2pi) empty_registry.
Proof.
  intros Hkeeps.
  destruct (_pushout_ (integer_ring A_uv) (PAdic Q2pi) empty_registry)
    as [[[B|] reg']|e] eqn:Hrun; try (vm_compute in Hrun; discriminate).
  specialize (Hkeeps eq_refl B reg').
  rewrite Hrun in Hkeeps. specialize (Hkeeps eq_refl).
  vm_compute in Hrun. injection Hrun as <- _. discriminate.
Qed.

(** The second of two calls with [log_radii=0] and [log_radii=[0,0]] returns
    the instance of the first. *)
Lemma factory_interning_witness :
  ∃ inst reg1,
    TateAlgebra (PAdic Z2) None (Scalar 0) (Some (NamesStr "x,y"))
      (OrderName "degrevlex") empty_registry = Ok (inst, reg1)
    ∧ TateAlgebra (PAdic Z2) (Some 20) (Seq [0; 0]) (Some (NamesSeq ["x"; "y"]))
        (OrderName "degrevlex") reg1 = Ok (inst, reg1)
    ∧ inst_id inst = 0%nat.
Proof.
  destruct (TateAlgebra (PAdic Z2) None (Scalar 0) (Some (NamesStr "x,y"))
              (OrderName "degrevlex") empty_registry) as [[inst reg1]|e] eqn:Hcall;
    [| vm_compute in Hcall; discriminate].
  exists inst, reg1. split; [done |].
  assert (create_key (PAdic Z2) None (Scalar 0) (Some (NamesStr "x,y"))
            (OrderName "degrevlex") = Ok key_xy) as Hk1 by (vm_compute; reflexivity).
  assert (create_key (PAdic Z2) (Some 20) (Seq [0; 0]) (Some (NamesSeq ["x"; "y"]))
            (OrderName "degrevlex") = Ok key_xy) as Hk2 by (vm_compute; reflexivity).
  destruct (factory_interning _ _ _ _ _ _ _ _ _ _ key_xy empty_registry inst reg1 reg1
              Hk1 Hk2 Hcall (reachable_refl reg1)) as (Hsame & Hintern & _).
  split; [exact Hsame |].
  destruct Hintern as [-> | (_ & _ & Hid & _)]; [| exact Hid].
  vm_compute in Hcall. discriminate.
Defined.

Lemma integer_ring_twin_witness :
  base_ring (integer_ring A_uv) = Z2
  ∧ variable_names (integer_ring A_uv) = variable_names A_uv
  ∧ term_order (integer_ring A_uv) = term_order A_uv
  ∧ (_integral A_uv = false → base_ring A_uv = Q2).
Proof.
  refine (integer_ring_twin Q2 20 [1; 2] ["u"; "v"] "degrevlex" false A_uv _).
  reflexivity.
Defined.

Lemma create_key_radii_witness :
  (∀ r : Z, ZZ (of_Z r) = Ok r →
     create_key (PAdic Z2) None (Scalar (of_Z r)) (Some (NamesStr "x,y"))
       (OrderName "degrevlex")
     = Ok (Q2, 20, replicate 2 r, ["x"; "y"], "degrevlex"))
  ∧ (∀ l : list Z, length l ≠ 2%nat →
       create_key (PAdic Z2) None (Seq l) (Some (NamesStr "x,y")) (OrderName "degrevlex")
       = Raise (ValueError "The number of radii does not match the number of variables"))
  ∧ (∀ (l : list Z) (lr : list Z), length l = 2%nat →
       create_key (PAdic Z2) None (Seq l) (Some (NamesStr "x,y")) (OrderName "degrevlex")
       = Ok (Q2, 20, lr, ["x"; "y"], "degrevlex")
       ↔ Forall2 (λ v z, ZZ v = Ok z) l lr).
Proof.
  refine (create_key_radii Z2 None (NamesStr "x,y") ["x"; "y"] (OrderName "degrevlex")
            "degrevlex" _ _); reflexivity.
Defined.

Lemma gen_index_contract_witness :
  (0 ≤ 1 < Z.of_nat (ngens A_xy) →
     ∃ g, gen A_xy 1 = Ok g ∧ gens A_xy !! Z.to_nat 1 = Some g)
  ∧ (gen A_xy 1 = Raise (ValueError "generator not defined")
     ↔ Z.of_nat (ngens A_xy) ≤ 1 ∨ 1 < - Z.of_nat (ngens A_xy))
  ∧ (ngens A_xy = 2%nat → gen A_xy 2 = Raise (ValueError "generator not defined")).
Proof.
  refine (gen_index_contract A_xy 1 _). repeat split.
Defined.

(** [A.gen(-1)] is the last generator although [-1] is not in [[0, 2)]. *)
Lemma gen_fails_iff_outside_range_counterexample :
  ¬ gen_fails_iff_outside_range A_xy.
Proof.
  intros Hiff. destruct (Hiff (-1)) as [_ Hfails].
  assert (gen A_xy (-1) = Raise (ValueError "generator not defined")) as Hgen.
  { apply Hfails. lia. }
  vm_compute in Hgen. discriminate.
Qed.

Lemma gen_negative_index_witness :
  (∃ g, gen A_xy (-1) = Ok g
        ∧ gens A_xy !! Z.to_nat (Z.of_nat (ngens A_xy) + -1) = Some g)
  ∧ (∀ j e, gen A_xy j = Raise e →
            e = ValueError "generator not defined"
            ∧ (Z.of_nat (ngens A_xy) ≤ j ∨ j < - Z.of_nat (ngens A_xy))).
Proof.
  refine (gen_negative_index A_xy (-1) _ _ _).
  - repeat split.
  - unfold ngens, A_xy. simpl. lia.
  - unfold ngens, A_xy. simpl. lia.
Defined.

(** [U.has_coerce_map_from(T)] of the docstring is [True] for the monoids of
    terms of two algebras with the same names, radii and order. *)
Lemma monoid_coerce_map_from_witness :
  (truthy (TateTermMonoid_coerce_map_from_ T_xy (Monoid T_xy)) = true
   ↔ pAdic_has_coerce_map_from (T_base T_xy) (Monoid T_xy) = true
     ∨ ∃ U, Monoid T_xy = Monoid U
            ∧ TateAlgebra_has_coerce_map_from (T_parent_algebra T_xy)
                (Algebra (algebra_of_series U)) = Ok true)
  ∧ (∀ B, Monoid T_xy = Algebra B →
          pAdic_has_coerce_map_from (T_base T_xy) (Monoid T_xy) = false →
          TateTermMonoid_coerce_map_from_ T_xy (Monoid T_xy) = Ok None).
Proof.
  refine (monoid_coerce_map_from T_xy (Monoid T_xy) _). discriminate.
Defined.

(** C8: on an element [x] of [A], the monoid of terms of [A] hands [x]
    itself to the coercion test of [A], not the owning algebra of [x], and
    answers [False], although the owning algebra [A] is accepted by [A];
    on the monoid of terms of [A], where the sibling branch hands over the
    owning algebra, the answer is [True]. *)
Theorem monoid_element_branch :
  TateTermMonoid_coerce_map_from_ T_xy
    (Element A_xy {| elt_shift := 0; elt_indet := 0 |}) = Ok (Some false)
  ∧ owning_algebra (Element A_xy {| elt_shift := 0; elt_indet := 0 |}) = Some A_xy
  ∧ TateAlgebra_has_coerce_map_from (T_parent_algebra T_xy) (Algebra A_xy) = Ok true
  ∧ TateTermMonoid_coerce_map_from_ T_xy (Monoid T_xy) = Ok (Some true).
Proof. repeat split. Qed.

(** An element of [A] is not accepted by the monoid of terms of [A],
    although [A] accepts [A]. *)
Lemma monoid_accepts_by_owner_counterexample :
  ¬ monoid_accepts_by_owner T_xy (Element A_xy {| elt_shift := 0; elt_indet := 0 |}).
Proof.
  intros [_ Haccepts].
  assert (truthy (TateTermMonoid_coerce_map_from_ T_xy
                    (Element A_xy {| elt_shift := 0; elt_indet := 0 |})) = true)
    as Htruthy.
  { apply Haccepts. right. exists A_xy. split; reflexivity. }
  vm_compute in Htruthy. discriminate.
Qed.

Lemma failures_are_results_witness :
  ((∀ K, Algebra B_xy ≠ PAdic K) →
     _pushout_ A_xy (Algebra B_xy) empty_registry = Ok (None, empty_registry))
  ∧ (well_formed A_xy → well_formed_parent (Algebra B_xy) →
     ∃ b, TateAlgebra_coerce_map_from_ A_xy (Algebra B_xy) = Ok b)
  ∧ (well_formed (T_parent_algebra T_xy) → well_formed_parent (Algebra B_xy) →
     ∃ b, TateTermMonoid_coerce_map_from_ T_xy (Algebra B_xy) = Ok b).
Proof.
  exact (failures_are_results A_xy T_xy (Algebra B_xy) empty_registry).
Defined.

(** The doctests of [_repr_]. *)
Example doctest_repr :
  TateAlgebra_repr_ str_base A_xy
  = Ok "Tate Algebra in x (val >= 0), y (val >= 0) over 2-adic Field"
  ∧ TateAlgebra_repr_ str_base (integer_ring A_xy)
    = Ok "Integer ring of the Tate Algebra in x (val >= 0), y (val >= 0) over 2-adic Field"
  ∧ TateTermMonoid_repr_ str_base (monoid_of_terms A_uv)
    = Ok "Monoid of terms in u (val >= -1), v (val >= -2) over 2-adic Field"
  ∧ (C ← make Z2 [-1; -2] ["x"; "y"] "degrevlex"; TateAlgebra_repr_ str_base C)
    = Ok "Tate Algebra in x (val >= 1), y (val >= 2) over 2-adic Field".
Proof. repeat split; vm_compute; reflexivity. Qed.

(** * Further properties of the factory and of the constructor *)

Lemma comprehension_Raise {A B : Type} (f : A → res B) (l : list A) (e : exn) :
  (∀ x, x ∈ l → (∃ y, f x = Ok y) ∨ f x = Raise e) →
  (∃ x, x ∈ l ∧ f x = Raise e) →
  comprehension f l = Raise e.
Proof.
  induction l as [|x l IH]; intros Hall (x0 & Hin & Hx0); [inversion Hin |].
  simpl. destruct (Hall x) as [[y Hy] | Hx]; [by left | | by rewrite Hx].
  rewrite Hy. simpl. rewrite IH; [done | |].
  - intros z Hz. apply Hall. by right.
  - apply elem_of_cons in Hin as [-> | Hin]; [congruence | by exists x0].
Qed.

Section keys.
Context {padic torder value : Type}.
Context `{Countable padic, Countable torder}.
Context `{!Ambient padic torder value}.

Abbreviation algebra := (TateAlgebra_generic padic torder).
Abbreviation key := (padic * Z * list Z * list string * torder)%type.

(** X1: every key returned by [create_key] is over the fraction field of the
    base that was given, has exactly one log radius per variable name
    (whether the radii were given as one value or as a sequence), and has
    the precision cap of that fraction field when no precision was given. *)
Theorem create_key_invariant (K : padic) (prec : option Z) (radii : radii_arg value)
    (names : option names_arg) (order : order_arg torder)
    (b : padic) (p : Z) (lr : list Z) (ns : list string) (o : torder) :
  create_key (PAdic K) prec radii names order = Ok (b, p, lr, ns, o) →
  b = fraction_field K
  ∧ length lr = length ns
  ∧ (prec = None → p = pAdic_precision_cap (fraction_field K))
  ∧ (∀ q, prec = Some q → p = q).
Proof.
  intros Hk. pose proof (create_key_lengths _ _ _ _ _ _ _ _ _ _ Hk) as Hlen.
  destruct (create_key_Ok _ _ _ _ _ _ Hk)
    as (K' & arg & ns' & lr' & o' & [= <-] & _ & _ & _ & _ & [= -> -> _ _ _]).
  repeat split; try done.
  - by intros ->.
  - by intros q ->.
Qed.

(** X2: the checks of [create_key] come in a fixed order: a base that is not
    p-adic raises the [TypeError] whatever the other arguments are; then
    missing names raise their [ValueError]; then a failure of
    [normalize_names] is raised as it is; then a sequence of radii of the
    wrong length raises its [ValueError] even when the order would not
    resolve; and a failure of [TermOrder] is only seen when the radii are
    fine. *)
Theorem create_key_error_order (base : parent padic torder) (K : padic)
    (prec : option Z) (radii : radii_arg value) (names : option names_arg)
    (arg : names_arg) (order : order_arg torder) (ns : list string) (e : exn) :
  ((∀ K', base ≠ PAdic K') →
     create_key base prec radii names order
     = Raise (TypeError "The base ring must be a p-adic field"))
  ∧ create_key (PAdic K) prec radii None order
    = Raise (ValueError "You must specify the names of the variables")
  ∧ (normalize_names arg = Raise e →
     create_key (PAdic K) prec radii (Some arg) order = Raise e)
  ∧ (normalize_names arg = Ok ns →
     ∀ l, length l ≠ length ns →
          create_key (PAdic K) prec (Seq l) (Some arg) order
          = Raise (ValueError "The number of radii does not match the number of variables"))
  ∧ (normalize_names arg = Ok ns →
     TermOrder order (length ns) = Raise e →
     ∀ l lr, length l = length ns → comprehension ZZ l = Ok lr →
             create_key (PAdic K) prec (Seq l) (Some arg) order = Raise e).
Proof.
  split; [| split; [| split; [| split]]].
  - intros Hbase. destruct base as [K'| | | |]; try done. by destruct (Hbase K').
  - done.
  - intros Hn. unfold create_key. by rewrite Hn.
  - intros Hn l Hl. unfold create_key. rewrite Hn. simpl.
    by rewrite bool_decide_eq_true_2.
  - intros Hn Ho l lr Hl Hlr. unfold create_key. rewrite Hn. simpl.
    rewrite bool_decide_eq_false_2 by (by intros ?). rewrite Hlr. simpl.
    by rewrite Ho.
Qed.

(** X3: one value [v] for the radii gives the same result (key or exception) as
    the sequence that repeats [v] once per variable, as soon as there is a
    variable or [v] converts to an integer: with no variable at all the
    single value is still converted, the empty sequence has nothing to
    convert. *)
Theorem create_key_broadcast (base : parent padic torder) (prec : option Z)
    (v : value) (arg : names_arg) (ns : list string) (order : order_arg torder) :
  normalize_names arg = Ok ns →
  ns ≠ [] ∨ (∃ r, ZZ v = Ok r) →
  create_key base prec (Scalar v) (Some arg) order
  = create_key base prec (Seq (replicate (length ns) v)) (Some arg) order.
Proof.
  intros Hn Hv. destruct base as [K| | | |]; try done.
  unfold create_key. rewrite Hn. simpl.
  rewrite bool_decide_eq_false_2 by (rewrite length_replicate; by intros ?).
  assert (ZZ v ≫= (λ r, Ok (replicate (length ns) r))
          = comprehension ZZ (replicate (length ns) v)) as ->; [| done].
  destruct (ZZ v) as [r|e] eqn:Hr; simpl.
  - symmetry. apply comprehension_Forall2.
    induction (length ns) as [|n IH]; simpl; by constructor.
  - destruct Hv as [Hne | [r ?]]; [| done].
    destruct ns as [|n0 ns']; [done |]. simpl. by rewrite Hr.
Qed.

(** X4: [create_key] is idempotent on its own keys: the components of a key,
    given back as arguments, yield the same key, as soon as the
    collaborators leave normal forms alone (the fraction field of a fraction
    field, an integer through [ZZ], normalised names, a resolved order). *)
Theorem create_key_roundtrip (base : parent padic torder) (prec : option Z)
    (radii : radii_arg value) (names : option names_arg) (order : order_arg torder)
    (b : padic) (p : Z) (lr : list Z) (ns : list string) (o : torder) :
  (∀ K, fraction_field (fraction_field K) = fraction_field K) →
  (∀ z, ZZ (of_Z z) = Ok z) →
  (∀ arg ns, normalize_names arg = Ok ns → normalize_names (NamesSeq ns) = Ok ns) →
  (∀ arg n o, TermOrder arg n = Ok o → TermOrder (OrderObj o) n = Ok o) →
  create_key base prec radii names order = Ok (b, p, lr, ns, o) →
  create_key (PAdic b) (Some p) (Seq (of_Z <$> lr)) (Some (NamesSeq ns)) (OrderObj o)
  = Ok (b, p, lr, ns, o).
Proof.
  intros Hff HZZ Hnames Horder Hk.
  pose proof (create_key_lengths _ _ _ _ _ _ _ _ _ _ Hk) as Hlen.
  destruct (create_key_Ok _ _ _ _ _ _ Hk)
    as (K & arg & ns' & lr' & o' & _ & _ & Hn & _ & Ho & [= -> _ _ <- <-]).
  unfold create_key. rewrite (Hnames _ _ Hn). simpl.
  rewrite bool_decide_eq_false_2 by (rewrite length_fmap; by intros ?).
  rewrite (comprehension_ZZ_of_Z HZZ). simpl.
  rewrite (Horder _ _ _ Ho). simpl. by rewrite Hff.
Qed.

(** X5: the constructor returns a structure exactly when every log radius
    fits a C [int] and there is a log radius for every variable (extra
    radii are tolerated): a radius outside the range raises [OverflowError]
    when the exponent tuple is built, whatever the lengths are; otherwise
    fewer radii than names raise [IndexError] while the generators of the
    ring of integers are built. *)
Theorem init_succeeds_iff (field : padic) (prec : Z) (lr : list Z)
    (names : list string) (order : torder) (integral : bool) :
  (forallb fits_int lr = true → (length names ≤ length lr)%nat →
     ∃ A, TateAlgebra_generic_init field prec lr names order integral = Ok A)
  ∧ (forallb fits_int lr = false →
     ∃ msg, TateAlgebra_generic_init field prec lr names order integral
            = Raise (OverflowError msg))
  ∧ (forallb fits_int lr = true → (length lr < length names)%nat →
     ∃ msg, TateAlgebra_generic_init field prec lr names order integral
            = Raise (IndexError msg)).
Proof.
  split; [apply init_total | split].
  - intros Hover. eexists.
    unfold TateAlgebra_generic_init, init_integral.
    rewrite (ETuple_overflow lr Hover). by destruct integral.
  - intros Hfits Hlt. exists "tuple index out of range".
    assert (init_integral field prec lr names order
            = Raise (IndexError "tuple index out of range")) as Hint.
    { unfold init_integral, ETuple. rewrite Hfits. simpl.
      rewrite (comprehension_Raise _ _ (IndexError "tuple index out of range"));
        [done | |].
      - intros i _. unfold tuple_getitem.
        destruct (lr !! i); [left; by eexists | by right].
      - exists (length lr). split; [apply elem_of_seq; lia |].
        unfold tuple_getitem. by rewrite lookup_ge_None_2. }
    unfold TateAlgebra_generic_init, ETuple. rewrite Hint, Hfits.
    by destruct integral.
Qed.

(** X6: [create_key] accepts log radii of any size, [create_object] does
    not: on a key that [create_key] returned, [create_object] builds a full
    algebra carrying the components of the key (it and its ring of integers
    with one radius and one generator per variable) when every radius of
    the key fits a C [int], and raises [OverflowError] when one does not. *)
Theorem create_object_on_keys (base : parent padic torder) (prec : option Z)
    (radii : radii_arg value) (names : option names_arg) (order : order_arg torder)
    (b : padic) (p : Z) (lr : list Z) (ns : list string) (o : torder) :
  create_key base prec radii names order = Ok (b, p, lr, ns, o) →
  (forallb fits_int lr = true →
   ∃ A, create_object (b, p, lr, ns, o) = Ok A
        ∧ _integral A = false
        ∧ base_ring A = b ∧ precision_cap A = p ∧ log_radii A = lr
        ∧ variable_names A = ns ∧ term_order A = o
        ∧ well_formed A ∧ well_formed (integer_ring A))
  ∧ (forallb fits_int lr = false →
     ∃ msg, create_object (b, p, lr, ns, o) = Raise (OverflowError msg)).
Proof.
  intros Hk. pose proof (create_key_lengths _ _ _ _ _ _ _ _ _ _ Hk) as Hlen.
  split.
  - intros Hfits.
    destruct (init_total b p lr ns o false) as [A HA]; [done | lia |].
    exists A. split; [exact HA |].
    destruct (init_Ok _ _ _ _ _ _ _ HA) as (_ & ? & ? & ? & _ & ? & ? & ? & _).
    destruct (init_well_formed _ _ _ _ _ _ _ Hlen HA) as [? ?].
    unfold base_ring, precision_cap, log_radii, variable_names, term_order.
    do 7 (split; [done |]). done.
  - intros Hover. eexists. unfold create_object, TateAlgebra_generic_init.
    by rewrite (ETuple_overflow lr Hover).
Qed.

(** X7: taking the ring of integers is idempotent, gives an integral structure
    over the same field with the same precision cap and log radii, and
    returns the structure itself exactly when it is already integral. *)
Theorem integer_ring_idempotent field prec lr names order integral (A : algebra) :
  TateAlgebra_generic_init field prec lr names order integral = Ok A →
  integer_ring (integer_ring A) = integer_ring A
  ∧ _integral (integer_ring A) = true
  ∧ _field (integer_ring A) = _field A
  ∧ precision_cap (integer_ring A) = precision_cap A
  ∧ log_radii (integer_ring A) = log_radii A
  ∧ (integer_ring A = A ↔ _integral A = true).
Proof.
  intros HA.
  destruct (init_Ok _ _ _ _ _ _ _ HA)
    as (Hf & Hc & Hlr & _ & _ & _ & Hi & _ & _ & AA & HAA & Hat & Hself).
  destruct (init_integral_Ok _ _ _ _ _ _ HAA)
    as (Hf' & Hc' & Hlr' & _ & _ & _ & Hi' & _).
  unfold precision_cap, log_radii. rewrite Hat, Hf', Hc', Hlr', Hi', Hf, Hc, Hlr.
  split; [| repeat split].
  - unfold integer_ring at 1. by rewrite Hself.
  - intros <-. by rewrite Hat.
  - intros Htrue. unfold integer_ring.
    unfold TateAlgebra_generic_init in HA. rewrite Hi in Htrue.
    rewrite Htrue in HA. apply bind_Ok in HA as (self & _ & [= <-]). done.
Qed.

(** X8: the generators: generator [i] of a full algebra is the indeterminate
    [i] itself, generator [i] of its ring of integers is the indeterminate
    [i] shifted by the log radius [i]; both have as many generators as
    variables. *)
Theorem generators_scaled field prec lr names order (A : algebra) (i : nat) (r : Z) :
  TateAlgebra_generic_init field prec lr names order false = Ok A →
  (i < length names)%nat →
  lr !! i = Some r →
  gen A (Z.of_nat i) = Ok {| elt_shift := 0; elt_indet := i |}
  ∧ gen (integer_ring A) (Z.of_nat i) = Ok {| elt_shift := r; elt_indet := i |}
  ∧ length (gens A) = length names
  ∧ length (gens (integer_ring A)) = length names.
Proof.
  intros HA Hi Hr. unfold TateAlgebra_generic_init in HA.
  apply bind_Ok in HA as (radii & [-> _]%ETuple_Ok & HA).
  apply bind_Ok in HA as (AA & HAA & [= <-]).
  unfold init_integral in HAA.
  apply bind_Ok in HAA as (radii & [-> _]%ETuple_Ok & HAA).
  apply bind_Ok in HAA as (gs & Hgs & [= <-]).
  pose proof (comprehension_length _ _ _ Hgs) as Hlen. rewrite length_seq in Hlen.
  apply comprehension_Forall2 in Hgs.
  assert (gs !! i = Some {| elt_shift := r; elt_indet := i |}) as Hgi.
  { destruct (Forall2_lookup_l _ _ _ i i Hgs) as (g & Hg & Hfi).
    { by apply lookup_seq_lt. }
    rewrite Hg. f_equal. simpl in Hfi.
    unfold tuple_getitem in Hfi. rewrite Hr in Hfi. simpl in Hfi. congruence. }
  unfold gen, gens, integer_ring. simpl.
  rewrite !list_getitem_nonneg
    by (simpl; rewrite ?length_fmap, ?length_seq, ?Hlen; lia).
  unfold getitem. rewrite Nat2Z.id.
  rewrite list_lookup_fmap, lookup_seq_lt by done. simpl. rewrite Hgi.
  rewrite length_fmap, length_seq. done.
Qed.

(** X9: the default element is the first generator; asking for it fails, with
    the "generator not defined" error, exactly on an algebra without
    variables. *)
Theorem an_element_first_generator (A : algebra) :
  well_formed A →
  (_an_element_ A = Raise (ValueError "generator not defined") ↔ ngens A = 0%nat)
  ∧ ((0 < ngens A)%nat → ∃ g, _an_element_ A = Ok g ∧ gens A !! 0%nat = Some g).
Proof.
  intros Hwf. pose proof (well_formed_gens A Hwf) as Hlen. unfold _an_element_.
  split.
  - rewrite gen_error_iff, Hlen. lia.
  - intros Hpos. destruct (gen_in_range A 0) as (g & Hg & Hlook); [lia |].
    by exists g.
Qed.

End keys.

(** * Further properties of the coercion tests *)

Section coercion_laws.
Context {padic torder value : Type}.
Context `{Countable padic, Countable torder}.
Context `{!Ambient padic torder value}.

Abbreviation algebra := (TateAlgebra_generic padic torder).

Lemma well_formed_lookup (A : algebra) (i : nat) :
  well_formed A → (i < ngens A)%nat → ∃ r, log_radii A !! i = Some r.
Proof.
  intros (Hn & Hlr & _) Hi. unfold ngens, log_radii in *.
  apply lookup_lt_is_Some_2. lia.
Qed.

(** X10: a Tate algebra accepts itself and its own monoid of terms as soon as
    its base ring accepts itself (the ratio is 1); the other way round, the
    monoid of terms answers [None] to its own algebra unless the base ring
    accepts the algebra as scalars. *)
Theorem coerce_map_from_self (A : algebra) :
  well_formed A →
  pAdic_has_coerce_map_from (base_ring A) (PAdic (base_ring A)) = true →
  TateAlgebra_coerce_map_from_ A (Algebra A) = Ok true
  ∧ TateAlgebra_coerce_map_from_ A (Monoid (monoid_of_terms A)) = Ok true
  ∧ (pAdic_has_coerce_map_from (base_ring A) (Algebra A) = false →
     TateTermMonoid_coerce_map_from_ (monoid_of_terms A) (Algebra A) = Ok None).
Proof.
  intros HA Hbase.
  assert (∀ i, (i < ngens A)%nat →
               scaled_at (log_radii A) (log_radii A)
                 (Z.pos (absolute_e (base_ring A))
                  `div` Z.pos (absolute_e (base_ring A))) i) as Hscaled.
  { intros i Hi. destruct (well_formed_lookup A i HA Hi) as [r Hr].
    exists r, r. rewrite Z.div_same by done. split; [done |]. split; [done | lia]. }
  split; [| split].
  - destruct (coerce_map_from_spec A (Algebra A) HA HA) as (b & -> & Hiff).
    f_equal. apply Hiff. right.
    exists (base_ring A), (log_radii A), (variable_names A), (term_order A). done.
  - destruct (coerce_map_from_spec A (Monoid (monoid_of_terms A)) HA) as (b & -> & Hiff).
    { split; [done | exact HA]. }
    f_equal. apply Hiff. right.
    exists (base_ring A), (log_radii A), (variable_names A), (term_order A). done.
  - intros Hscalar.
    unfold TateTermMonoid_coerce_map_from_, monoid_of_terms, TateTermMonoid_init.
    simpl. by rewrite Hscalar.
Qed.

(** X11: structural coercions compose when the ramification indices divide one
    another along the tower: if [A] accepts [B] and [B] accepts [C] by the
    structural test, the base ring of [A] accepts that of [C], and
    [e(C) | e(B) | e(A)], then [A] accepts [C]. *)
Theorem coerce_map_from_trans (A B C : algebra) :
  well_formed A → well_formed B → well_formed C →
  pAdic_has_coerce_map_from (base_ring A) (Algebra B) = false →
  pAdic_has_coerce_map_from (base_ring B) (Algebra C) = false →
  TateAlgebra_coerce_map_from_ A (Algebra B) = Ok true →
  TateAlgebra_coerce_map_from_ B (Algebra C) = Ok true →
  pAdic_has_coerce_map_from (base_ring A) (PAdic (base_ring C)) = true →
  (Z.pos (absolute_e (base_ring B)) | Z.pos (absolute_e (base_ring A))) →
  (Z.pos (absolute_e (base_ring C)) | Z.pos (absolute_e (base_ring B))) →
  TateAlgebra_coerce_map_from_ A (Algebra C) = Ok true.
Proof.
  intros HA HB HC HsAB HsBC HAB HBC HbaseAC [k Hk] [m Hm].
  destruct (coerce_map_from_spec A (Algebra B) HA HB) as (b1 & Hb1 & Hiff1).
  destruct (coerce_map_from_spec B (Algebra C) HB HC) as (b2 & Hb2 & Hiff2).
  rewrite Hb1 in HAB. injection HAB as ->. rewrite Hb2 in HBC. injection HBC as ->.
  destruct Hiff1 as [Hiff1 _]. destruct Hiff2 as [Hiff2 _].
  destruct Hiff1 as [? | (? & ? & ? & ? & [= <- <- <- <-] & _ & HnAB & HoAB & HrAB)];
    [done | congruence |].
  destruct Hiff2 as [? | (? & ? & ? & ? & [= <- <- <- <-] & _ & HnBC & HoBC & HrBC)];
    [done | congruence |].
  destruct (coerce_map_from_spec A (Algebra C) HA HC) as (b & -> & Hiff).
  f_equal. apply Hiff. right.
  exists (base_ring C), (log_radii C), (variable_names C), (term_order C).
  split; [done |]. split; [done |]. split; [congruence |]. split; [congruence |].
  intros i Hi.
  destruct (HrAB i Hi) as (rA & rB & HrA & HrB & HeqAB).
  destruct (HrBC i) as (rB' & rC & HrB' & HrC & HeqBC).
  { destruct HA as (HnA & _), HB as (HnB & _). unfold ngens, variable_names in *.
    rewrite HnB, <- HnAB, <- HnA. done. }
  exists rA, rC. split; [done |]. split; [done |].
  assert (rB' = rB) as -> by congruence.
  rewrite HeqAB, HeqBC.
  assert (0 < Z.pos (absolute_e (base_ring B))) as HposB by lia.
  assert (0 < Z.pos (absolute_e (base_ring C))) as HposC by lia.
  remember (Z.pos (absolute_e (base_ring A))) as eA.
  remember (Z.pos (absolute_e (base_ring B))) as eB.
  remember (Z.pos (absolute_e (base_ring C))) as eC.
  assert (eA `div` eB = k) as -> by (rewrite Hk; apply Z.div_mul; lia).
  assert (eB `div` eC = m) as -> by (rewrite Hm; apply Z.div_mul; lia).
  assert (eA `div` eC = k * m) as ->
    by (rewrite Hk, Hm, Z.mul_assoc; apply Z.div_mul; lia).
  lia.
Qed.

(** X12: when the base of [R] is more ramified than the base of [A], the floor
    quotient of the ramification indices is 0 and the radii of [R] no longer
    matter: past the scalar test, [A] accepts [R] exactly when the bases,
    names and orders agree and every log radius of [A] is 0. *)
Theorem coerce_map_from_ratio_zero (A : algebra) (R : parent padic torder)
    (Rbase : padic) (Rlogs : list Z) (Rnames : list string) (Rorder : torder) :
  as_structure R = Some (Rbase, Rlogs, Rnames, Rorder) →
  well_formed A → well_formed_parent R →
  pAdic_has_coerce_map_from (base_ring A) R = false →
  (absolute_e (base_ring A) < absolute_e Rbase)%positive →
  ∃ b, TateAlgebra_coerce_map_from_ A R = Ok b
       ∧ (b = true ↔
            pAdic_has_coerce_map_from (base_ring A) (PAdic Rbase) = true
            ∧ variable_names A = Rnames
            ∧ term_order A = Rorder
            ∧ ∀ r, r ∈ log_radii A → r = 0).
Proof.
  intros HS HA HR Hscalar Hlt.
  destruct (coerce_map_from_spec A R HA HR) as (b & Hb & Hiff).
  pose proof (as_structure_lengths R _ _ _ _ HS HR) as HRlen.
  exists b. split; [done |]. rewrite Hiff.
  assert (Z.pos (absolute_e (base_ring A)) `div` Z.pos (absolute_e Rbase) = 0) as Hzero.
  { apply Z.div_small. lia. }
  split.
  - intros [? | (? & ? & ? & ? & HS' & ? & ? & ? & Hall)]; [congruence |].
    rewrite HS in HS'. injection HS' as <- <- <- <-.
    do 3 (split; [done |]).
    intros r [i Hi]%list_elem_of_lookup.
    destruct (Hall i) as (r' & s & Hr' & _ & Heq).
    { destruct HA as (HnA & HlA & _). unfold ngens, log_radii in *.
      rewrite HnA, <- HlA. by eapply lookup_lt_Some. }
    rewrite Hzero in Heq. assert (r = r') by congruence. lia.
  - intros (? & Hn & ? & Hall). right. exists Rbase, Rlogs, Rnames, Rorder.
    do 4 (split; [done |]). intros i Hi.
    destruct (well_formed_lookup A i HA Hi) as [r Hr].
    destruct (lookup_lt_is_Some_2 Rlogs i) as [s Hs].
    { rewrite HRlen, <- Hn. destruct HA as (HnA & _).
      unfold ngens, variable_names in *. lia. }
    exists r, s. rewrite Hzero. do 2 (split; [done |]).
    rewrite (Hall r); [lia |]. by eapply list_elem_of_lookup_2.
Qed.

End coercion_laws.

(** * Further properties of the pushout *)

Section pushout_laws.
Context {padic torder value : Type}.
Context `{Countable padic, Countable torder}.
Context `{!Ambient padic torder value}.

Abbreviation algebra := (TateAlgebra_generic padic torder).

(** A factory call is one step of the registry. *)
Lemma TateAlgebra_reachable base prec radii names order
    (reg : registry padic torder) F reg' :
  TateAlgebra base prec radii names order reg = Ok (F, reg') →
  reachable reg reg' ∧ TateAlgebra base prec radii names order reg' = Ok (F, reg').
Proof.
  unfold TateAlgebra. intros (k & Hk & Hget)%bind_Ok. split.
  - eapply reachable_call; [apply reachable_refl | exact Hget].
  - rewrite Hk. simpl. apply get_object_hit. by eapply get_object_registered.
Qed.

(** X13: pushing out twice: a second pushout against the same [R], on the
    registry the first one left, returns the same result and leaves the
    registry as it is; and a pushout never drops or replaces an instance
    that was registered before. *)
Theorem pushout_twice (A : algebra) (R : parent padic torder)
    (reg reg' : registry padic torder) (B : option algebra) :
  _pushout_ A R reg = Ok (B, reg') →
  _pushout_ A R reg' = Ok (B, reg')
  ∧ (∀ k inst, cache reg !! k = Some inst → cache reg' !! k = Some inst).
Proof.
  destruct R as [K|T|C|owner x|name]; simpl;
    try (intros [= <- <-]; split; done).
  destruct (pushout (_base A) K) as [nb|e]; [simpl | done].
  destruct (TateAlgebra _ _ _ _ _ reg) as [[F reg1]|e] eqn:Hcall; [simpl | done].
  destruct (TateAlgebra_reachable _ _ _ _ _ _ _ _ Hcall) as [Hreach Hagain].
  intros Hres.
  assert (reg1 = reg') as -> by (destruct (is_field nb); congruence).
  split.
  - rewrite Hagain. simpl. exact Hres.
  - intros k inst. by apply reachable_keeps.
Qed.

(** [ZZ] applied to an integer is that integer. *)
Hypothesis ZZ_of_Z : ∀ z : Z, ZZ (of_Z z) = Ok z.

(** Everything a defined pushout returns. *)
Lemma pushout_result (A : algebra) (R nb : padic) (reg : registry padic torder) :
  well_formed A → canonical A → registry_ok reg →
  pushout (_base A) R = Ok nb →
  let e := Z.pos (absolute_e nb) `div` Z.pos (absolute_e (_base A)) in
  forallb fits_int ((λ r, e * r) <$> _log_radii A) = true →
  ∃ B reg',
    _pushout_ A (PAdic R) reg = Ok (Some B, reg')
    ∧ _names B = _names A ∧ _order B = _order A
    ∧ _log_radii B = (λ r, e * r) <$> _log_radii A
    ∧ _base B = (if is_field nb then fraction_field nb
                 else pAdic_integer_ring (fraction_field nb))
    ∧ _integral B = negb (is_field nb)
    ∧ well_formed B ∧ registry_ok reg'.
Proof.
  intros HA Hcan Hok Hnb e Hfits.
  destruct (pushout_run ZZ_of_Z A R nb reg HA Hcan Hok Hnb Hfits)
    as (F & reg' & _ & HF & Hok' & Hrun).
  fold e in HF, Hrun.
  destruct (init_Ok _ _ _ _ _ _ _ HF)
    as (_ & _ & Hlr & Hn & _ & Ho & Hi & Hb & _ & AA & HAA & Hat & _).
  destruct (init_integral_Ok _ _ _ _ _ _ HAA)
    as (_ & _ & Hlr' & Hn' & _ & Ho' & Hi' & Hb' & _).
  assert (length ((λ r, e * r) <$> _log_radii A) = length (_names A)) as Hlen.
  { rewrite length_fmap. by destruct HA as (_ & -> & _). }
  destruct (init_well_formed _ _ _ _ _ _ _ Hlen HF) as [Hwf Hwf'].
  eexists _, reg'. split; [exact Hrun |].
  destruct (is_field nb); simpl.
  - rewrite Hn, Ho, Hlr, Hb, Hi. done.
  - rewrite Hat, Hn', Ho', Hlr', Hb', Hi'. rewrite Hat in Hwf'. done.
Qed.

(** X14: a Tate algebra coerces into its pushout: when the pushed-out base ring
    accepts the base ring of [A] and the scaled log radii fit a C [int] (so
    that the pushout can be built), the structure returned by the pushout
    of [A] with [R] accepts [A]. *)
Theorem coerce_into_pushout (A : algebra) (R nb : padic) (reg : registry padic torder) :
  well_formed A → canonical A → registry_ok reg →
  pushout (base_ring A) R = Ok nb →
  (is_field nb = true → fraction_field nb = nb) →
  (is_field nb = false → pAdic_integer_ring (fraction_field nb) = nb) →
  pAdic_has_coerce_map_from nb (PAdic (base_ring A)) = true →
  forallb fits_int
    ((λ r, Z.pos (absolute_e nb) `div` Z.pos (absolute_e (base_ring A)) * r)
       <$> log_radii A) = true →
  ∃ B reg',
    _pushout_ A (PAdic R) reg = Ok (Some B, reg')
    ∧ TateAlgebra_coerce_map_from_ B (Algebra A) = Ok true.
Proof.
  intros HA Hcan Hok Hnb Hfld Hring Hbase Hfits.
  destruct (pushout_result A R nb reg HA Hcan Hok Hnb Hfits)
    as (B & reg' & Hrun & Hn & Ho & Hlr & Hb & _ & HB & _).
  assert (_base B = nb) as HbB.
  { rewrite Hb. destruct (is_field nb); [by apply Hfld | by apply Hring]. }
  exists B, reg'. split; [exact Hrun |].
  destruct (coerce_map_from_spec B (Algebra A) HB HA) as (b & -> & Hiff).
  f_equal. apply Hiff. right.
  exists (base_ring A), (log_radii A), (variable_names A), (term_order A).
  unfold base_ring, variable_names, term_order, log_radii, ngens.
  rewrite HbB, Hn, Ho, Hlr. do 4 (split; [done |]).
  intros i Hi.
  destruct (lookup_lt_is_Some_2 (_log_radii A) i) as [r Hr].
  { destruct HB as (HnB & _), HA as (_ & HlA & _). rewrite HlA, <- Hn. lia. }
  exists (Z.pos (absolute_e nb) `div` Z.pos (absolute_e (_base A)) * r), r.
  rewrite list_lookup_fmap, Hr. done.
Qed.

(** X15: when the scaled log radii fit a C [int], the result of a defined
    pushout can be pushed out again: it has one radius and one generator
    per variable, normalised names and order, radii that fit a C [int], it
    is an integral-subring view exactly when the pushed-out base ring is not
    a field, and the registry it leaves holds built structures only. *)
Theorem pushout_keeps_invariants (A : algebra) (R nb : padic)
    (reg : registry padic torder) :
  well_formed A → canonical A → registry_ok reg →
  pushout (base_ring A) R = Ok nb →
  forallb fits_int
    ((λ r, Z.pos (absolute_e nb) `div` Z.pos (absolute_e (base_ring A)) * r)
       <$> log_radii A) = true →
  ∃ B reg',
    _pushout_ A (PAdic R) reg = Ok (Some B, reg')
    ∧ well_formed B ∧ canonical B ∧ registry_ok reg'
    ∧ forallb fits_int (log_radii B) = true
    ∧ _integral B = negb (is_field nb).
Proof.
  intros HA Hcan Hok Hnb Hfits.
  destruct (pushout_result A R nb reg HA Hcan Hok Hnb Hfits)
    as (B & reg' & Hrun & Hn & Ho & Hlr & _ & Hi & HB & Hok').
  exists B, reg'. do 2 (split; [done |]). split; [| split; [done | split; [| done]]].
  - unfold canonical. rewrite Hn, Ho. exact Hcan.
  - unfold log_radii. rewrite Hlr. exact Hfits.
Qed.

(** X18: a pushout whose scaled log radii do not all fit a C [int] raises
    [OverflowError]: over a registry of built structures the scaled key
    cannot be registered, and building the full algebra over the pushed-out
    base ring fails on its exponent tuple. *)
Theorem pushout_overflow (A : algebra) (R nb : padic) (reg : registry padic torder) :
  well_formed A → canonical A → registry_ok reg →
  pushout (base_ring A) R = Ok nb →
  forallb fits_int
    ((λ r, Z.pos (absolute_e nb) `div` Z.pos (absolute_e (base_ring A)) * r)
       <$> log_radii A) = false →
  ∃ msg, _pushout_ A (PAdic R) reg = Raise (OverflowError msg).
Proof.
  intros HA Hcan Hok Hnb Hover.
  set (e := Z.pos (absolute_e nb) `div` Z.pos (absolute_e (base_ring A))) in *.
  pose proof (pushout_key ZZ_of_Z A nb e (e * _cap A) HA Hcan) as Hkey.
  eexists. unfold _pushout_. unfold base_ring in Hnb. rewrite Hnb. simpl.
  fold (base_ring A). fold e. unfold TateAlgebra. rewrite Hkey. simpl.
  unfold get_object.
  destruct (cache reg !! _) as [inst|] eqn:Hcache.
  - apply Hok in Hcache. unfold create_object in Hcache.
    apply init_fits in Hcache. unfold log_radii in Hover. congruence.
  - unfold create_object, TateAlgebra_generic_init.
    unfold log_radii in Hover. rewrite (ETuple_overflow _ Hover). done.
Qed.

End pushout_laws.

(** * Printing *)

Lemma append_assoc (s1 s2 s3 : string) : (s1 +:+ s2) +:+ s3 = s1 +:+ (s2 +:+ s3).
Proof.
  induction s1 as [|c s1 IH]; [done |].
  change (String c ((s1 +:+ s2) +:+ s3) = String c (s1 +:+ (s2 +:+ s3))).
  by f_equal.
Qed.

Lemma append_nil_r (s : string) : s +:+ "" = s.
Proof.
  induction s as [|c s IH]; [done |].
  change (String c (s +:+ "") = String c s). by f_equal.
Qed.

(** The loop of [_repr_] puts [", "] before every variable. *)
Lemma repr_vars_items (names : list string) (lr : list Z) (indices : list nat)
    (items : list string) (vars : string) :
  Forall2 (λ i item, ∃ name r, names !! i = Some name ∧ lr !! i = Some r
                               ∧ item = repr_var name r) indices items →
  repr_vars names lr indices vars
  = Ok (vars +:+ foldr (λ item s, ", " +:+ item +:+ s) "" items).
Proof.
  intros Hitems. revert vars.
  induction Hitems as [|i item indices items (name & r & Hn & Hr & ->) _ IH];
    intros vars; simpl.
  - by rewrite append_nil_r.
  - unfold getitem. rewrite Hn, Hr. simpl. rewrite IH. f_equal.
    unfold repr_var. rewrite !append_assoc. done.
Qed.

(** [vars[2:]] is the list of variables joined by [", "]. *)
Lemma slice_from_items (items : list string) :
  slice_from 2 (foldr (λ item s, ", " +:+ item +:+ s) "" items)
  = String.concat ", " items.
Proof.
  destruct items as [|item items]; [done |].
  change (item +:+ foldr (λ item s, ", " +:+ item +:+ s) "" items
          = String.concat ", " (item :: items)).
  revert item. induction items as [|item' items IH]; intros item.
  - apply append_nil_r.
  - change (item +:+ ", " +:+ item' +:+ foldr (λ item s, ", " +:+ item +:+ s) "" items
            = item +:+ ", " +:+ String.concat ", " (item' :: items)).
    by rewrite IH.
Qed.

Lemma repr_vars_range (names : list string) (lr : list Z) :
  length lr = length names →
  repr_vars names lr (seq 0 (length names)) ""
  = Ok (foldr (λ item s, ", " +:+ item +:+ s) "" (zip_with repr_var names lr)).
Proof.
  intros Hlen. rewrite (repr_vars_items names lr _ (zip_with repr_var names lr)); [done |].
  apply Forall2_same_length_lookup_2.
  - rewrite length_seq, length_zip_with. lia.
  - intros i j item Hj Hitem. apply lookup_seq in Hj as [-> _].
    apply lookup_zip_with_Some in Hitem as (name & r & -> & Hn & Hr).
    by exists name, r.
Qed.

Section printing_laws.
Context {padic torder value : Type}.
Context `{!Ambient padic torder value}.
Variable str_base : padic → string.

(** X16: the printed form of a Tate algebra: ["Tate Algebra in "], preceded by
    ["Integer ring of the "] on a ring of integers, then the variables as
    ["name (val >= -r)"] joined by [", "] in their order, then [" over "]
    and the base field (the field, also on a ring of integers); it never
    raises, and without variables the list is empty. *)
Theorem repr_algebra (A : TateAlgebra_generic padic torder) :
  well_formed A →
  TateAlgebra_repr_ str_base A
  = Ok ((if _integral A then "Integer ring of the Tate Algebra in "
         else "Tate Algebra in ")
        +:+ String.concat ", " (zip_with repr_var (_names A) (_log_radii A))
        +:+ " over " +:+ str_base (_field A)).
Proof.
  intros (Hn & Hlr & _). unfold TateAlgebra_repr_.
  rewrite Hn, repr_vars_range by done. unfold mbind, res_bind.
  rewrite slice_from_items. by destruct (_integral A).
Qed.

(** X17: the printed form of the monoid of terms of a Tate algebra: the same
    list of variables after ["Monoid of terms in "], over the base ring of
    the algebra (the ring of integers of the field for a ring of integers);
    without variables it is ["Monoid of terms over "] and the base ring. *)
Theorem repr_monoid (A : TateAlgebra_generic padic torder) :
  well_formed A →
  TateTermMonoid_repr_ str_base (monoid_of_terms A)
  = Ok (if bool_decide (ngens A = 0%nat)
        then "Monoid of terms over " +:+ str_base (base_ring A)
        else "Monoid of terms in "
             +:+ String.concat ", " (zip_with repr_var (_names A) (_log_radii A))
             +:+ " over " +:+ str_base (base_ring A)).
Proof.
  intros (Hn & Hlr & _).
  unfold TateTermMonoid_repr_, monoid_of_terms, TateTermMonoid_init, ngens,
    variable_names, log_radii.
  cbn [T_ngens T_names T_log_radii T_base]. rewrite Hn.
  case_bool_decide; [done |].
  rewrite repr_vars_range by done. unfold mbind, res_bind.
  by rewrite slice_from_items.
Qed.

End printing_laws.

(** * The further properties on the docstring examples *)

Lemma A_big_built :
  TateAlgebra (PAdic Z2) None (Scalar 1073741824) (Some (NamesStr "x,y"))
    (OrderName "degrevlex") empty_registry
  ≫= (λ r, Ok (inst_obj r.1))
  = Ok A_big.
Proof. vm_compute. reflexivity. Qed.

Lemma D_xy_built :
  TateAlgebra_generic_init Q2rho 20 [4; -4] ["x"; "y"] "degrevlex" false = Ok D_xy.
Proof. reflexivity. Qed.

Lemma create_key_invariant_witness :
  Q2 = fraction_field Z2
  ∧ length [0; 0] = length ["x"; "y"]
  ∧ (@None Z = None → 20 = pAdic_precision_cap (fraction_field Z2))
  ∧ (∀ q, @None Z = Some q → 20 = q).
Proof.
  refine (create_key_invariant Z2 None (Scalar 0) (Some (NamesStr "x,y"))
            (OrderName "degrevlex") Q2 20 [0; 0] ["x"; "y"] "degrevlex" _).
  vm_compute. reflexivity.
Defined.

Lemma create_key_error_order_witness :
  create_key (PAdic Z2) None (Seq [1]) None (OrderName "degrevlex")
  = Raise (ValueError "You must specify the names of the variables")
  ∧ (∀ l : list Z, length l ≠ 2%nat →
       create_key (PAdic Z2) None (Seq l) (Some (NamesStr "x,y")) (OrderName "degrevlex")
       = Raise (ValueError "The number of radii does not match the number of variables")).
Proof.
  destruct (create_key_error_order (OtherParent "ZZ" : parent base string) Z2 None
              (Seq [1]) (Some (NamesStr "x,y")) (NamesStr "x,y")
              (OrderName "degrevlex") ["x"; "y"] (ValueError "invalid"))
    as (_ & Hnames & _ & Hradii & _).
  split; [exact Hnames |]. apply Hradii. reflexivity.
Defined.

Lemma create_key_broadcast_witness :
  create_key (PAdic Z2) None (Scalar 0) (Some (NamesStr "x,y")) (OrderName "degrevlex")
  = create_key (PAdic Z2) None (Seq (replicate 2 0)) (Some (NamesStr "x,y"))
      (OrderName "degrevlex").
Proof.
  refine (create_key_broadcast (PAdic Z2) None 0 (NamesStr "x,y") ["x"; "y"]
            (OrderName "degrevlex") _ _).
  - reflexivity.
  - left. discriminate.
Defined.

Lemma create_key_roundtrip_witness :
  create_key (PAdic Q2) (Some 20) (Seq (of_Z <$> [0; 0])) (Some (NamesSeq ["x"; "y"]))
    (OrderObj "degrevlex")
  = Ok key_xy.
Proof.
  refine (create_key_roundtrip (PAdic Z2) None (Scalar 0) (Some (NamesStr "x,y"))
            (OrderName "degrevlex") Q2 20 [0; 0] ["x"; "y"] "degrevlex" _ _ _ _ _).
  - reflexivity.
  - reflexivity.
  - intros [s|l] ns; simpl; intros [= <-]; reflexivity.
  - intros [s|o'] n o; simpl; intros [= <-]; reflexivity.
  - vm_compute. reflexivity.
Defined.

Lemma init_succeeds_iff_witness :
  (∃ A, TateAlgebra_generic_init Q2 20 [1; 2; 3] ["x"; "y"] "degrevlex" false = Ok A)
  ∧ (∃ msg, TateAlgebra_generic_init Q2 20 [2147483648] ["x"; "y"] "degrevlex" false
            = Raise (OverflowError msg))
  ∧ (∃ msg, TateAlgebra_generic_init Q2 20 [1] ["x"; "y"] "degrevlex" false
            = Raise (IndexError msg)).
Proof.
  split; [| split].
  - destruct (init_succeeds_iff Q2 20 [1; 2; 3] ["x"; "y"] "degrevlex" false)
      as (Hok & _ & _).
    apply Hok; [reflexivity | simpl; lia].
  - destruct (init_succeeds_iff Q2 20 [2147483648] ["x"; "y"] "degrevlex" false)
      as (_ & Hover & _).
    apply Hover. reflexivity.
  - destruct (init_succeeds_iff Q2 20 [1] ["x"; "y"] "degrevlex" false)
      as (_ & _ & Hshort).
    apply Hshort; [reflexivity | simpl; lia].
Defined.

Lemma create_object_on_keys_witness :
  (forallb fits_int [0; 0] = true →
   ∃ A, create_object key_xy = Ok A
        ∧ _integral A = false
        ∧ base_ring A = Q2 ∧ precision_cap A = 20 ∧ log_radii A = [0; 0]
        ∧ variable_names A = ["x"; "y"] ∧ term_order A = "degrevlex"
        ∧ well_formed A ∧ well_formed (integer_ring A))
  ∧ (forallb fits_int [0; 0] = false →
     ∃ msg, create_object key_xy = Raise (OverflowError msg)).
Proof.
  refine (create_object_on_keys (PAdic Z2) None (Scalar 0) (Some (NamesStr "x,y"))
            (OrderName "degrevlex") Q2 20 [0; 0] ["x"; "y"] "degrevlex" _).
  vm_compute. reflexivity.
Defined.

(** [create_key] returns the key with radii [2^31], [create_object] raises
    on it. *)
Example create_object_overflow :
  create_key (PAdic Z2) None (Scalar 2147483648) (Some (NamesStr "x,y"))
    (OrderName "degrevlex")
  = Ok (Q2, 20, [2147483648; 2147483648], ["x"; "y"], "degrevlex")
  ∧ create_object (Q2, 20, [2147483648; 2147483648], ["x"; "y"], "degrevlex")
    = Raise (OverflowError "value too large to convert to int").
Proof. split; vm_compute; reflexivity. Qed.

Lemma integer_ring_idempotent_witness :
  integer_ring (integer_ring A_uv) = integer_ring A_uv
  ∧ _integral (integer_ring A_uv) = true
  ∧ _field (integer_ring A_uv) = _field A_uv
  ∧ precision_cap (integer_ring A_uv) = precision_cap A_uv
  ∧ log_radii (integer_ring A_uv) = log_radii A_uv
  ∧ (integer_ring A_uv = A_uv ↔ _integral A_uv = true).
Proof.
  refine (integer_ring_idempotent Q2 20 [1; 2] ["u"; "v"] "degrevlex" false A_uv _).
  reflexivity.
Defined.

Lemma generators_scaled_witness :
  gen A_uv (Z.of_nat 1) = Ok {| elt_shift := 0; elt_indet := 1 |}
  ∧ gen (integer_ring A_uv) (Z.of_nat 1) = Ok {| elt_shift := 2; elt_indet := 1 |}
  ∧ length (gens A_uv) = length ["u"; "v"]
  ∧ length (gens (integer_ring A_uv)) = length ["u"; "v"].
Proof.
  refine (generators_scaled Q2 20 [1; 2] ["u"; "v"] "degrevlex" A_uv 1 2 _ _ _).
  - reflexivity.
  - simpl. lia.
  - reflexivity.
Defined.

Lemma an_element_first_generator_witness :
  (_an_element_ A_xy = Raise (ValueError "generator not defined") ↔ ngens A_xy = 0%nat)
  ∧ ((0 < ngens A_xy)%nat → ∃ g, _an_element_ A_xy = Ok g ∧ gens A_xy !! 0%nat = Some g).
Proof.
  refine (an_element_first_generator A_xy _). repeat split.
Defined.

Lemma coerce_map_from_self_witness :
  TateAlgebra_coerce_map_from_ B_xy (Algebra B_xy) = Ok true
  ∧ TateAlgebra_coerce_map_from_ B_xy (Monoid (monoid_of_terms B_xy)) = Ok true
  ∧ (pAdic_has_coerce_map_from (base_ring B_xy) (Algebra B_xy) = false →
     TateTermMonoid_coerce_map_from_ (monoid_of_terms B_xy) (Algebra B_xy) = Ok None).
Proof.
  refine (coerce_map_from_self B_xy _ _).
  - repeat split.
  - reflexivity.
Defined.

(** [B_xy] into [C_xy] into [D_xy]: ramification indices 1, 2 and 4. *)
Lemma coerce_map_from_trans_witness :
  TateAlgebra_coerce_map_from_ D_xy (Algebra B_xy) = Ok true.
Proof.
  refine (coerce_map_from_trans D_xy C_xy B_xy _ _ _ _ _ _ _ _ _ _).
  - repeat split.
  - repeat split.
  - repeat split.
  - reflexivity.
  - reflexivity.
  - reflexivity.
  - reflexivity.
  - reflexivity.
  - exists 2. reflexivity.
  - exists 2. reflexivity.
Defined.

(** [A_xy] over the 2-adic field and [C_xy] over the Eisenstein extension:
    the quotient of 1 by 2 is 0. *)
Lemma coerce_map_from_ratio_zero_witness :
  ∃ b, TateAlgebra_coerce_map_from_ A_xy (Algebra C_xy) = Ok b
       ∧ (b = true ↔
            pAdic_has_coerce_map_from (base_ring A_xy) (PAdic Q2pi) = true
            ∧ variable_names A_xy = ["x"; "y"]
            ∧ term_order A_xy = "degrevlex"
            ∧ ∀ r, r ∈ log_radii A_xy → r = 0).
Proof.
  refine (coerce_map_from_ratio_zero A_xy (Algebra C_xy) Q2pi [2; -2] ["x"; "y"]
            "degrevlex" _ _ _ _ _).
  - reflexivity.
  - repeat split.
  - repeat split.
  - reflexivity.
  - reflexivity.
Defined.

Lemma pushout_twice_witness :
  ∃ B reg',
    _pushout_ A_uv (PAdic Z2pi) empty_registry = Ok (B, reg')
    ∧ _pushout_ A_uv (PAdic Z2pi) reg' = Ok (B, reg')
    ∧ (∀ k inst, cache (empty_registry (padic := base) (torder := string)) !! k
                 = Some inst → cache reg' !! k = Some inst).
Proof.
  destruct (_pushout_ A_uv (PAdic Z2pi) empty_registry) as [[B reg']|e] eqn:Hrun;
    [| vm_compute in Hrun; discriminate].
  exists B, reg'. split; [reflexivity |].
  exact (pushout_twice A_uv (PAdic Z2pi) empty_registry reg' B Hrun).
Defined.

Lemma coerce_into_pushout_witness :
  ∃ B reg',
    _pushout_ A_uv (PAdic Z2pi) empty_registry = Ok (Some B, reg')
    ∧ TateAlgebra_coerce_map_from_ B (Algebra A_uv) = Ok true.
Proof.
  refine (coerce_into_pushout dyadic_ZZ_of_Z A_uv Z2pi Q2pi empty_registry
            _ _ _ _ _ _ _ _).
  - repeat split.
  - split; reflexivity.
  - apply registry_ok_empty.
  - reflexivity.
  - reflexivity.
  - simpl. discriminate.
  - reflexivity.
  - reflexivity.
Defined.

Lemma pushout_keeps_invariants_witness :
  ∃ B reg',
    _pushout_ (integer_ring A_uv) (PAdic Z4) empty_registry = Ok (Some B, reg')
    ∧ well_formed B ∧ canonical B ∧ registry_ok reg'
    ∧ forallb fits_int (log_radii B) = true
    ∧ _integral B = negb (is_field Z4).
Proof.
  refine (pushout_keeps_invariants dyadic_ZZ_of_Z (integer_ring A_uv) Z4 Z4
            empty_registry _ _ _ _ _).
  - repeat split.
  - split; reflexivity.
  - apply registry_ok_empty.
  - reflexivity.
  - reflexivity.
Defined.

(** The radii [2^30] doubled against the Eisenstein extension. *)
Lemma pushout_overflow_witness :
  ∃ msg, _pushout_ A_big (PAdic Z2pi) empty_registry = Raise (OverflowError msg).
Proof.
  refine (pushout_overflow dyadic_ZZ_of_Z A_big Z2pi Q2pi empty_registry _ _ _ _ _).
  - repeat split.
  - split; reflexivity.
  - apply registry_ok_empty.
  - reflexivity.
  - reflexivity.
Defined.

Lemma repr_algebra_witness :
  TateAlgebra_repr_ str_base A_uv
  = Ok ((if _integral A_uv then "Integer ring of the Tate Algebra in "
         else "Tate Algebra in ")
        +:+ String.concat ", " (zip_with repr_var (_names A_uv) (_log_radii A_uv))
        +:+ " over " +:+ str_base (_field A_uv)).
Proof.
  refine (repr_algebra str_base A_uv _). repeat split.
Defined.

Lemma repr_monoid_witness :
  TateTermMonoid_repr_ str_base (monoid_of_terms A_uv)
  = Ok (if bool_decide (ngens A_uv = 0%nat)
        then "Monoid of terms over " +:+ str_base (base_ring A_uv)
        else "Monoid of terms in "
             +:+ String.concat ", " (zip_with repr_var (_names A_uv) (_log_radii A_uv))
             +:+ " over " +:+ str_base (base_ring A_uv)).
Proof.
  refine (repr_monoid str_base A_uv _). repeat split.
Defined.
